(** * The Chosen downloader: episode cache, URL extractor, batch
      preprocessor and episode selector

    A shallow embedding of [cache.py], of the parsing half of
    [extractor.py], of [preprocessor.py] and of [parse_episode_selection]
    and [_save_to_auto_cache] from [cli.py], followed by the properties
    of the specification that were checked against them.

    Python values are embedded as follows.
    - [str] is a list of Unicode code points, [int] is [Z].
    - An exception is a value of [exn]; a call that can raise returns a
      [result]; [try]/[except] is [try_except].  [int()] and [str()]
      keep the default bound of the interpreter on the digits of a
      number.
    - The file system is a finite map from paths to nodes, threaded through
      the calls that touch it; the failures the operating system can inject
      are an explicit argument of those calls.
    - The character tables of the interpreter ([str.isspace], decimal
      digits, case folding of [re]) are fixed on ASCII and left open beyond
      it (class [Unicode]). *)

From Stdlib Require Import ZArith String Ascii DecimalString.
From stdpp Require Import base list gmap sorting.

Set Warnings "-register-all".

Local Open Scope Z_scope.

(** ** Python values and builtins *)

Module py.

(** A character is its code point. *)
Definition char := Z.
Definition str := list char.

(** A literal of the source, written in ASCII. *)
Definition lit (x : string) : str :=
  (λ a, Z.of_N (N_of_ascii a)) <$> list_ascii_of_string x.

(** The exception classes the modelled code can meet.  All of them derive
    from [Exception]; [json.JSONDecodeError] and [UnicodeError] are
    [ValueError]s, [FileNotFoundError] and the like are [OSError]s. *)
Inductive exn :=
  ValueError | TypeError | KeyError | AttributeError | NameError | OSError |
  ImportError.

Inductive result (A : Type) :=
| Return (a : A)
| Raise (e : exn).
Arguments Return {A} a.
Arguments Raise {A} e.

#[global] Instance exn_eq_dec : EqDecision exn.
Proof. solve_decision. Defined.

#[global] Instance result_ret : MRet result := @Return.
#[global] Instance result_bind : MBind result := λ A B f m,
  match m with
  | Return a => f a
  | Raise e => Raise e
  end.

(** [try: body except <classes>: handler]. *)
Definition try_except {A} (body : result A) (catches : exn → bool)
    (handler : exn → result A) : result A :=
  match body with
  | Return a => Return a
  | Raise e => if catches e then handler e else Raise e
  end.

Definition is_ValueError (e : exn) : bool := bool_decide (e = ValueError).
Definition is_OSError (e : exn) : bool := bool_decide (e = OSError).
Definition is_Exception (e : exn) : bool := true.

(** A comprehension [[f(x) for x in l]] whose body can raise: the first
    exception ends it.  [f] also receives the position of [x]. *)
Fixpoint comprehension {A B} (f : nat → A → result B) (i : nat)
    (l : list A) : result (list B) :=
  match l with
  | [] => Return []
  | x :: l' =>
    y ← f i x;
    ys ← comprehension f (S i) l';
    Return (y :: ys)
  end.

(** The part of the interpreter's Unicode database that lies beyond ASCII:
    which characters are white space, which are decimal digits (and their
    value), and which characters [re.IGNORECASE] lets a pattern letter
    match.  A digit has a value from 0 to 9, and no white space is a
    digit. *)
Class Unicode := {
  uni_isspace : char → bool;
  uni_decimal : char → option Z;
  uni_ieq : char → char → bool;
  uni_decimal_range c d : uni_decimal c = Some d → 0 ≤ d ≤ 9;
  uni_space_no_digit c : uni_isspace c = true → uni_decimal c = None
}.

Fixpoint drop_while {A} (p : A → bool) (l : list A) : list A :=
  match l with
  | [] => []
  | x :: l' => if p x then drop_while p l' else l
  end.

(** [s.startswith(p)] and [sub in s]. *)
Fixpoint startswith (s p : str) {struct p} : bool :=
  match p, s with
  | [], _ => true
  | a :: p', b :: s' => (a =? b) && startswith s' p'
  | _ :: _, [] => false
  end.

Fixpoint contains (s sub : str) : bool :=
  startswith s sub ||
  match s with
  | [] => false
  | _ :: s' => contains s' sub
  end.

Definition endswith (s p : str) : bool :=
  startswith (reverse s) (reverse p).

(** [str(n)] for an integer. *)
Definition str_of_int (n : Z) : str :=
  lit (NilZero.string_of_int (Z.to_int n)).

(** [a, b = t]: the tuple must have two components. *)
Definition unpack2 {A} (t : list A) : result (A * A) :=
  match t with
  | [a; b] => Return (a, b)
  | _ => Raise ValueError
  end.

(** [s.split(sep)] for a separator of one character: [k] occurrences of
    the separator give [k + 1] pieces. *)
Fixpoint split (sep : char) (s : str) : list str :=
  match s with
  | [] => [[]]
  | c :: s' =>
    if c =? sep then [] :: split sep s'
    else match split sep s' with
         | p :: ps => (c :: p) :: ps
         | [] => [[c]]
         end
  end.

(** [Py_ISSPACE], the white space of the C parser behind [int()]. *)
Definition c_isspace (c : char) : bool :=
  ((9 <=? c) && (c <=? 13)) || (c =? 32).

Definition ascii_digit (c : char) : option Z :=
  if (48 <=? c) && (c <=? 57) then Some (c - 48) else None.

Definition ascii_lower (c : char) : char :=
  if (65 <=? c) && (c <=? 90) then c + 32 else c.

(** The bound that the interpreter puts on the number of digits of a
    decimal literal that [int()] parses and of a number that [str()]
    writes: the default of [sys.get_int_max_str_digits()]. *)
Definition int_max_str_digits : Z := 4300.

(** The number of digits of a literal, as the C parser counts them while
    it scans digits and underscores; underscores do not count. *)
Fixpoint count_digits (s : str) : nat :=
  match s with
  | [] => O
  | c :: s' =>
    match ascii_digit c with
    | Some _ => S (count_digits s')
    | None => if c =? 95 then count_digits s' else O
    end
  end.

(** [str(n)] and [json.dump] write an integer only within that bound. *)
Definition int_writable (n : Z) : bool :=
  Z.abs n <? 10 ^ int_max_str_digits.

(** The digits of a decimal literal after its first digit: digits,
    each optionally preceded by one underscore.  [None] when an
    underscore is not followed by a digit. *)
Fixpoint scan_digits (acc : Z) (s : str) : option (Z * str) :=
  match s with
  | [] => Some (acc, [])
  | c :: s' =>
    match ascii_digit c with
    | Some d => scan_digits (10 * acc + d) s'
    | None =>
      if c =? 95 then
        match s' with
        | c2 :: s'' =>
          match ascii_digit c2 with
          | Some d => scan_digits (10 * acc + d) s''
          | None => None
          end
        | [] => None
        end
      else Some (acc, s)
    end
  end.

Section unicode.
Context `{!Unicode}.

(** [str.isspace] on one character, which is also [\s] of [re]. *)
Definition isspace (c : char) : bool :=
  if c <? 128 then
    ((9 <=? c) && (c <=? 13)) || ((28 <=? c) && (c <=? 31)) || (c =? 32)
  else uni_isspace c.

(** The decimal value of a digit character; [\d] of [re] matches the
    characters that have one. *)
Definition decimal (c : char) : option Z :=
  if c <? 128 then ascii_digit c else uni_decimal c.

Definition isdigit (c : char) : bool :=
  match decimal c with
  | Some _ => true
  | None => false
  end.

(** Whether the pattern letter [p] (an ASCII letter) matches the text
    character [c] under [re.IGNORECASE]. *)
Definition ieq (p c : char) : bool :=
  if c <? 128 then ascii_lower c =? ascii_lower p else uni_ieq p c.

(** [s.strip()]. *)
Definition lstrip (s : str) : str := drop_while isspace s.
Definition rstrip (s : str) : str := reverse (drop_while isspace (reverse s)).
Definition strip (s : str) : str := rstrip (lstrip s).

(** [int(s)] for a string [s].  The interpreter first maps white space
    and decimal digits from beyond ASCII to ASCII, then parses
    [ws* sign? digit (_? digit)* ws*] in base ten.  A literal of more
    than [int_max_str_digits] digits is refused with a [ValueError], like
    one that is malformed. *)
Definition to_ascii (c : char) : option char :=
  if c <? 127 then Some c
  else if isspace c then Some 32
  else d ← decimal c; Some (48 + d).

Definition int (s : str) : result Z :=
  match mapM to_ascii s with
  | None => Raise ValueError
  | Some t =>
    let t := drop_while c_isspace t in
    let '(sign, t) :=
      match t with
      | c :: t' =>
        if c =? 43 then (1, t')
        else if c =? 45 then (-1, t')
        else (1, t)
      | [] => (1, t)
      end in
    match t with
    | [] => Raise ValueError
    | c :: t' =>
      match ascii_digit c with
      | None => Raise ValueError
      | Some d =>
        match scan_digits d t' with
        | None => Raise ValueError
        | Some (n, rest) =>
          match drop_while c_isspace rest with
          | [] =>
            if int_max_str_digits <? Z.of_nat (count_digits (c :: t'))
            then Raise ValueError
            else Return (sign * n)
          | _ :: _ => Raise ValueError
          end
        end
      end
    end
  end.
End unicode.

(** [list.sort(key=key)]: a stable sort, ascending by key. *)
Section sort.
Context {A : Type} (key : A → Z).

Fixpoint insert_by (x : A) (l : list A) : list A :=
  match l with
  | [] => [x]
  | y :: l' => if key x <=? key y then x :: l else y :: insert_by x l'
  end.

Definition sort (l : list A) : list A := foldr insert_by [] l.
End sort.

End py.


(** ** The fragment of [re] the program uses *)

Module re.
Import py.

(** Character classes: white space [\s], decimal digits [\d], and the
    class of the manifest pattern, any character but a double quote or
    white space. *)
Inductive cls := Space | Digit | UrlChar.

(** A pattern is a sequence of atoms: a character compared exactly (a
    literal without [IGNORECASE], or one that has no case), a letter
    under [IGNORECASE], and a greedy repetition of a class, at least
    [min] times, outside or inside the capturing group 1. *)
Inductive atom :=
| Chr (c : char)
| ChrI (c : char)
| Many (k : cls) (min : nat)
| Group (k : cls) (min : nat).

Definition regex := list atom.

Definition chars (x : string) : regex := Chr <$> lit x.
Definition letters (x : string) : regex := ChrI <$> lit x.

Record Match := { whole : str; group1 : option str }.

(** A greedy repetition tries the longest run first and gives characters
    back one at a time. *)
Fixpoint backtrack {R} (try : nat → option R) (min n : nat) : option R :=
  if (n <? min)%nat then None
  else match try n with
       | Some r => Some r
       | None =>
         match n with
         | O => None
         | S n' => backtrack try min n'
         end
       end.

Fixpoint run_length {A} (p : A → bool) (l : list A) : nat :=
  match l with
  | [] => O
  | x :: l' => if p x then S (run_length p l') else O
  end.

Section unicode.
Context `{!Unicode}.

Definition in_cls (k : cls) (c : char) : bool :=
  match k with
  | Space => isspace c
  | Digit => isdigit c
  | UrlChar => negb (c =? 34) && negb (isspace c)
  end.

(** Match the pattern at the start of the text: the number of characters
    consumed and the text of group 1. *)
Fixpoint match_here (r : regex) (s : str) : option (nat * option str) :=
  match r with
  | [] => Some (O, None)
  | Chr c :: r' =>
    match s with
    | ch :: s' =>
      if ch =? c then '(n, g) ← match_here r' s'; Some (S n, g) else None
    | [] => None
    end
  | ChrI c :: r' =>
    match s with
    | ch :: s' =>
      if ieq c ch then '(n, g) ← match_here r' s'; Some (S n, g) else None
    | [] => None
    end
  | Many k min :: r' =>
    backtrack
      (λ n, '(m, g) ← match_here r' (drop n s); Some ((n + m)%nat, g))
      min (run_length (in_cls k) s)
  | Group k min :: r' =>
    backtrack
      (λ n, '(m, _) ← match_here r' (drop n s);
            Some ((n + m)%nat, Some (take n s)))
      min (run_length (in_cls k) s)
  end.

(** The leftmost match: where it starts, and what it matched. *)
Fixpoint search_from (r : regex) (s : str) : option (nat * Match) :=
  match match_here r s with
  | Some (n, g) => Some (O, {| whole := take n s; group1 := g |})
  | None =>
    match s with
    | [] => None
    | _ :: s' => '(i, m) ← search_from r s'; Some (S i, m)
    end
  end.

(** [re.search(r, s)]. *)
Definition search (r : regex) (s : str) : option Match :=
  snd <$> search_from r s.

(** [re.findall(r, s)] for a pattern without a group that matches no
    empty text: the successive matches, none overlapping the one
    before. *)
Fixpoint findall_fuel (fuel : nat) (r : regex) (s : str) : list str :=
  match fuel with
  | O => []
  | S fuel' =>
    match search_from r s with
    | None => []
    | Some (i, m) =>
      whole m ::
      findall_fuel fuel' r (drop (i + Nat.max 1 (length (whole m))) s)
    end
  end.

Definition findall (r : regex) (s : str) : list str :=
  findall_fuel (S (length s)) r s.

(** What it means for a text to match a pattern, with the text of
    group 1: the declarative reading of the atoms, with no order among
    the ways to match. *)
Inductive matches : regex → str → option str → Prop :=
| matches_nil : matches [] [] None
| matches_Chr c r s g :
    matches r s g → matches (Chr c :: r) (c :: s) g
| matches_ChrI c ch r s g :
    ieq c ch = true → matches r s g → matches (ChrI c :: r) (ch :: s) g
| matches_Many k min r w s g :
    Forall (λ c, in_cls k c = true) w → (min ≤ length w)%nat →
    matches r s g → matches (Many k min :: r) (w ++ s) g
| matches_Group k min r w s g :
    Forall (λ c, in_cls k c = true) w → (min ≤ length w)%nat →
    matches r s g → matches (Group k min :: r) (w ++ s) (Some w).

(** The pattern matches somewhere in the text. *)
Definition occurs (r : regex) (s : str) (g : option str) : Prop :=
  ∃ pre m post, s = pre ++ m ++ post ∧ matches r m g.

(** [u] is a match of the pattern in the text, and no match starts
    before it. *)
Definition leftmost_match (r : regex) (s u : str) (g : option str) : Prop :=
  ∃ pre post,
    s = pre ++ u ++ post ∧ matches r u g ∧
    ∀ pre' u' post' g',
      s = pre' ++ u' ++ post' → matches r u' g' →
      (length pre ≤ length pre')%nat.
End unicode.
End re.

(** ** JSON values, as [json.load] returns them and [json.dump] takes them

    Numbers with a fraction or an exponent are left out: the cache format
    has none. *)

Module json.
Import py.

Inductive value :=
| JNull
| JBool (b : bool)
| JInt (n : Z)
| JStr (s : str)
| JList (l : list value)
| JDict (kvs : list (str * value)).

Fixpoint assoc (k : str) (kvs : list (str * value)) : option value :=
  match kvs with
  | [] => None
  | (k', v) :: kvs' => if decide (k' = k) then Some v else assoc k kvs'
  end.

(** [data[k]]. *)
Definition getitem (data : value) (k : str) : result value :=
  match data with
  | JDict kvs =>
    match assoc k kvs with
    | Some v => Return v
    | None => Raise KeyError
    end
  | _ => Raise TypeError
  end.

(** [data.get(k, default)]. *)
Definition get (data : value) (k : str) (fallback : value) : result value :=
  match data with
  | JDict kvs => Return (default fallback (assoc k kvs))
  | _ => Raise AttributeError
  end.

(** [for x in data]: a list gives its items, a dict its keys, a string
    its characters; the other values are not iterable. *)
Definition iter (data : value) : result (list value) :=
  match data with
  | JList l => Return l
  | JDict kvs => Return ((λ kv, JStr kv.1) <$> kvs)
  | JStr s => Return ((λ c, JStr [c]) <$> s)
  | _ => Raise TypeError
  end.

(** Truth value, as [or] tests it. *)
Definition truthy (v : value) : bool :=
  match v with
  | JNull | JBool false | JInt 0 | JStr [] | JList [] | JDict [] => false
  | _ => true
  end.

(** A string can be written to a file opened with [encoding='utf-8']
    when none of its characters is a surrogate, and an integer when
    [str()] can write it. *)
Definition str_encodable (s : str) : bool :=
  forallb (λ c, negb ((55296 <=? c) && (c <=? 57343))) s.

Fixpoint encodable (v : value) : bool :=
  match v with
  | JInt n => int_writable n
  | JStr s => str_encodable s
  | JList l => forallb encodable l
  | JDict kvs =>
    forallb (λ kv, match kv with (k, x) => str_encodable k && encodable x end) kvs
  | _ => true
  end.
End json.


(** ** The file system and its failures *)

Module fs.
Import py.

(** A path is the list of its components ([Path.parts]): the empty list is
    the current directory, and an absolute path starts with the root. *)
Definition path := list str.
Definition root : path := [lit "/"].

(** [Path.parent]. *)
Definition parent (p : path) : path :=
  if decide (p = root) then p else removelast p.

(** A file is identified with what a reader gets from it: the value
    [json.load] returns when its text is a JSON document, and the raw
    text when it is not one. *)
Inductive content :=
| Json (j : json.value)
| Text (raw : str).

Inductive node :=
| Dir
| File (c : content).

Abbreviation filesystem := (gmap path node).

(** The current directory and the root are directories of every file
    system. *)
Definition stat (fs : filesystem) (p : path) : option node :=
  if bool_decide (p = []) || bool_decide (p = root) then Some Dir
  else fs !! p.

Definition is_dir (fs : filesystem) (p : path) : bool :=
  match stat fs p with
  | Some Dir => true
  | _ => false
  end.

(** The answer of [Path.exists] for a path that can be examined. *)
Definition exists_ (fs : filesystem) (p : path) : bool :=
  match stat fs p with
  | Some _ => true
  | None => false
  end.

(** What the operating system does to one call of [load] or [save]:
    which system calls it refuses, the random names [mkstemp] draws,
    what is left in a file when writing to it fails, and the paths it
    refuses to examine (a name that is too long, a directory that may
    not be searched). *)
Record faults := {
  mkdir_fails : bool;
  mkstemp_fails : bool;
  mkstemp_names : list str;
  write_fails : bool;
  written : content;
  replace_fails : bool;
  unlink_fails : bool;
  read_fails : bool;
  unexaminable : path → bool
}.

(** Code that reads and writes files and can raise. *)
Definition io (A : Type) : Type := filesystem → result A * filesystem.

#[global] Instance io_ret : MRet io := λ A a fs, (Return a, fs).
#[global] Instance io_bind : MBind io := λ A B f m fs,
  match m fs with
  | (Return a, fs') => f a fs'
  | (Raise e, fs') => (Raise e, fs')
  end.

Definition raise {A} (e : exn) : io A := λ fs, (Raise e, fs).

Definition try_io {A} (body : io A) (catches : exn → bool)
    (handler : exn → io A) : io A := λ fs,
  match body fs with
  | (Return a, fs') => (Return a, fs')
  | (Raise e, fs') => if catches e then handler e fs' else (Raise e, fs')
  end.

(** [d.mkdir(parents=True, exist_ok=True)]: every missing ancestor of
    [d], and [d] itself, becomes a directory; a file in the way is an
    error. *)
Definition ancestors (d : path) : list path :=
  (λ n, take n d) <$> seq 1 (length d).

Fixpoint mkdirs (ps : list path) : io unit :=
  match ps with
  | [] => mret tt
  | p :: ps' => λ fs,
    match stat fs p with
    | Some Dir => mkdirs ps' fs
    | Some (File _) => (Raise OSError, fs)
    | None => mkdirs ps' (<[p := Dir]> fs)
    end
  end.

Definition mkdir_parents (env : faults) (d : path) : io unit :=
  if mkdir_fails env then raise OSError else mkdirs (ancestors d).

(** [tempfile.mkstemp(dir=dir, prefix=prefix, suffix=suffix)]: an empty
    file is created in [dir] under the first drawn name that is free. *)
Definition mkstemp (env : faults) (dir : path) (prefix suffix : str)
    : io path := λ fs,
  if mkstemp_fails env then (Raise OSError, fs)
  else if negb (is_dir fs dir) then (Raise OSError, fs)
  else
    match find (λ p, negb (exists_ fs p))
               ((λ r, dir ++ [prefix ++ r ++ suffix]) <$> mkstemp_names env)
    with
    | Some p => (Return p, <[p := File (Text [])]> fs)
    | None => (Raise OSError, fs)
    end.

(** [with os.fdopen(fd, 'w', encoding='utf-8') as f: json.dump(data, f,
    ...)] on the file at [p]. *)
Definition write_json (env : faults) (p : path) (data : json.value)
    : io unit := λ fs,
  if write_fails env then (Raise OSError, <[p := File (written env)]> fs)
  else if json.encodable data then (Return tt, <[p := File (Json data)]> fs)
  else (Raise ValueError, <[p := File (written env)]> fs).

(** [os.replace(src, dst)] for a file [src]. *)
Definition replace (env : faults) (src dst : path) : io unit := λ fs,
  if replace_fails env then (Raise OSError, fs)
  else
    match stat fs src with
    | Some (File c) =>
      if is_dir fs dst then (Raise OSError, fs)
      else (Return tt, <[dst := File c]> (delete src fs))
    | _ => (Raise OSError, fs)
    end.

(** [p.exists()] as a caller sees it: for a path that cannot be examined
    the [OSError] of the system call is raised again; [exists_] is the
    answer when there is one. *)
Definition Path_exists (env : faults) (fs : filesystem) (p : path)
    : result bool :=
  if unexaminable env p then Raise OSError else Return (exists_ fs p).

(** [os.unlink(p)]. *)
Definition unlink (env : faults) (p : path) : io unit := λ fs,
  if unlink_fails env then (Raise OSError, fs)
  else
    match stat fs p with
    | Some (File _) => (Return tt, delete p fs)
    | _ => (Raise OSError, fs)
    end.

(** [Path(s)]: repeated separators and single dots are dropped. *)
Definition Path (s : str) : path :=
  (if startswith s (lit "/") then root else []) ++
  filter (λ c, c ≠ [] ∧ c ≠ lit ".") (split 47 s).

(** [with open(p, 'r', encoding='utf-8') as f: f.read()]; [json_text] is
    the text of a file that holds a JSON document. *)
Definition read_text (json_text : json.value → str) (env : faults)
    (p : path) : io str := λ fs,
  if read_fails env then (Raise OSError, fs)
  else
    match stat fs p with
    | Some (File (Json j)) => (Return (json_text j), fs)
    | Some (File (Text raw)) => (Return raw, fs)
    | _ => (Raise OSError, fs)
    end.

(** [with open(p, 'r', encoding='utf-8') as f: json.load(f)]. *)
Definition read_json (env : faults) (p : path) : io json.value := λ fs,
  if read_fails env then (Raise OSError, fs)
  else
    match stat fs p with
    | Some (File (Json j)) => (Return j, fs)
    | Some (File (Text _)) => (Raise ValueError, fs)
    | _ => (Raise OSError, fs)
    end.
End fs.

(** ** cache.py

    The messages that [load] and [save] print when they fail are left
    out. *)

Module cache.
Import py json.

Record CacheEntry := {
  episode_number : Z;
  title : str;
  episode_url : str;
  m3u8_url : str;
  extracted_at : str
}.

(** [CacheEntry.__init__]; [now] is [datetime.now().isoformat()] at the
    time of the call. *)
Definition CacheEntry_init (now : str) (episode_number : Z)
    (title episode_url m3u8_url : str) (extracted_at : option str)
    : CacheEntry :=
  {| episode_number := episode_number;
     title := title;
     episode_url := episode_url;
     m3u8_url := m3u8_url;
     extracted_at :=
       match extracted_at with
       | Some (c :: s) => c :: s
       | _ => now
       end |}.

Definition to_dict (self : CacheEntry) : value :=
  JDict [ (lit "episode_number", JInt (episode_number self));
          (lit "title", JStr (title self));
          (lit "episode_url", JStr (episode_url self));
          (lit "m3u8_url", JStr (m3u8_url self));
          (lit "extracted_at", JStr (extracted_at self)) ].

(** The annotations of [CacheEntry.__init__] and of [Cache.season] are
    the types of the embedding.  Python does not check them: a document
    that holds a value of another type in one of these fields lies outside
    the embedding, which refuses it here. *)
Definition as_int (v : value) : result Z :=
  match v with
  | JInt n => Return n
  | _ => Raise TypeError
  end.

Definition as_str (v : value) : result str :=
  match v with
  | JStr s => Return s
  | _ => Raise TypeError
  end.

Definition as_optional_int (v : value) : result (option Z) :=
  match v with
  | JNull => Return None
  | JInt n => Return (Some n)
  | _ => Raise TypeError
  end.

Definition as_optional_str (v : value) : result (option str) :=
  if truthy v then s ← as_str v; Return (Some s) else Return None.

(** [CacheEntry.from_dict]. *)
Definition from_dict (now : str) (data : value) : result CacheEntry :=
  n ← getitem data (lit "episode_number");
  t ← getitem data (lit "title");
  u ← getitem data (lit "episode_url");
  m ← getitem data (lit "m3u8_url");
  e ← get data (lit "extracted_at") JNull;
  n ← as_int n;
  t ← as_str t;
  u ← as_str u;
  m ← as_str m;
  e ← as_optional_str e;
  Return (CacheEntry_init now n t u m e).

Record Cache := {
  cache_file : fs.path;
  season : option Z;
  episodes : list CacheEntry
}.

(** [Cache.__init__], on [Path(cache_file)]. *)
Definition Cache_init (cache_file : fs.path) : Cache :=
  {| cache_file := cache_file; season := None; episodes := [] |}.

Definition set_season (self : Cache) (s : option Z) : Cache :=
  {| cache_file := cache_file self; season := s; episodes := episodes self |}.

Definition set_episodes (self : Cache) (l : list CacheEntry) : Cache :=
  {| cache_file := cache_file self; season := season self; episodes := l |}.

(** [Cache.load] once its existence check has answered.  [now i] is the
    clock when the entry at position [i] of the file is built.  The
    result is the returned flag and the object after the call; an
    exception leaves the attributes assigned before it. *)
Definition load (env : fs.faults) (now : nat → str) (self : Cache)
    (files : fs.filesystem) : bool * Cache :=
  if negb (fs.exists_ files (cache_file self)) then
    (true, set_episodes (set_season self None) [])
  else
    match fs.read_json env (cache_file self) files with
    | (Raise _, _) => (false, self)
    | (Return data, _) =>
      match get data (lit "season") JNull ≫= as_optional_int with
      | Raise _ => (false, self)
      | Return s =>
        let self := set_season self s in
        match
          eps ← get data (lit "episodes") (JList []);
          eps ← iter eps;
          comprehension (λ i ep, from_dict (now i) ep) O eps
        with
        | Raise _ => (false, self)
        | Return l => (true, set_episodes self l)
        end
      end
    end.

(** [Cache.load] as a caller sees it.  The existence check stands before
    the [try]: for a path that cannot be examined, the [OSError] of
    [Path.exists] escapes and the object is as it was. *)
Definition load_call (env : fs.faults) (now : nat → str) (self : Cache)
    (files : fs.filesystem) : result bool * Cache :=
  match fs.Path_exists env files (cache_file self) with
  | Raise e => (Raise e, self)
  | Return _ =>
    let '(ok, self) := load env now self files in (Return ok, self)
  end.

Definition data_of (self : Cache) : value :=
  JDict [ (lit "season",
           match season self with
           | Some n => JInt n
           | None => JNull
           end);
          (lit "episodes", JList (to_dict <$> episodes self)) ].

(** [Cache.save]: the returned flag and the file system after the
    call. *)
Definition save (env : fs.faults) (self : Cache) (files : fs.filesystem)
    : bool * fs.filesystem :=
  let body : fs.io bool :=
    _ ← fs.mkdir_parents env (fs.parent (cache_file self));
    let data := data_of self in
    temp_path ← fs.mkstemp env (fs.parent (cache_file self))
                   (lit ".tmp_") (lit ".json");
    fs.try_io
      (_ ← fs.write_json env temp_path data;
       _ ← fs.replace env temp_path (cache_file self);
       mret true)
      is_Exception
      (λ e,
        _ ← fs.try_io (fs.unlink env temp_path) is_OSError (λ _, mret tt);
        fs.raise e)
  in
  match body files with
  | (Return b, files') => (b, files')
  | (Raise _, files') => (false, files')
  end.

(** [Cache.add_episode]. *)
Definition add_episode (self : Cache) (entry : CacheEntry) : Cache :=
  let l := filter (λ ep, episode_number ep ≠ episode_number entry)
                  (episodes self) in
  let l := l ++ [entry] in
  set_episodes self (sort episode_number l).

(** [Cache.get_episode]. *)
Definition get_episode (self : Cache) (n : Z) : option CacheEntry :=
  find (λ ep, episode_number ep =? n) (episodes self).

(** [Cache.get_episodes_in_range]. *)
Definition get_episodes_in_range (self : Cache) (start stop : Z)
    : list CacheEntry :=
  filter (λ ep, start ≤ episode_number ep ≤ stop) (episodes self).

(** [Cache.get_all_episodes]. *)
Definition get_all_episodes (self : Cache) : list CacheEntry :=
  episodes self.

(** [Cache.clear]. *)
Definition clear (self : Cache) : Cache :=
  set_episodes (set_season self None) [].
End cache.


(** ** extractor.py *)

Module extractor.
Import py re.

(** What the parsed document answers to the queries of the extractor. *)
Record Tag := {
  attrs : list (str * str);
  string_ : option str
}.

Record BeautifulSoup := {
  find_meta : str → option Tag;
  find_title : option Tag;
  find_all_script : list Tag
}.

(** [tag.get(name)]. *)
Fixpoint attr (name : str) (l : list (str * str)) : option str :=
  match l with
  | [] => None
  | (k, v) :: l' => if decide (k = name) then Some v else attr name l'
  end.

Definition tag_get (tag : Tag) (name : str) : option str :=
  attr name (attrs tag).

(** The collaborators of the extractor: the HTML parser
    ([BeautifulSoup(html, 'lxml')]), the browser session that
    [extract_from_url] drives and that yields the three components of its
    result, the text of a JSON file, and [str(e)] for an exception. *)
Class Platform := {
  soup_of : str → BeautifulSoup;
  browse : str → option str * option str * option str;
  json_text : json.value → str;
  describe : exn → str
}.

Section unicode.
Context `{!Unicode}.

(** The manifest pattern: [https://], one or more characters that are
    neither a double quote nor white space, [/hls.m3u8?viewerToken=],
    and again one or more such characters. *)
Definition m3u8_pattern : regex :=
  chars "https://" ++ [Many UrlChar 1] ++
  chars "/hls.m3u8?viewerToken=" ++ [Many UrlChar 1].

Fixpoint scan_scripts (scripts : list Tag) : option str :=
  match scripts with
  | [] => None
  | script :: rest =>
    match string_ script with
    | Some (c :: s) =>
      match findall m3u8_pattern (c :: s) with
      | m :: _ => Some m
      | [] => scan_scripts rest
      end
    | _ => scan_scripts rest
    end
  end.

(** [URLExtractor._extract_m3u8_url]. *)
Definition _extract_m3u8_url (soup : BeautifulSoup) (html_content : str)
    : option str :=
  let strategy_1 :=
    match find_meta soup (lit "og:url") with
    | Some og_url =>
      match tag_get og_url (lit "content") with
      | Some (c :: u) =>
        let url := c :: u in
        if contains url (lit "hls.m3u8") && contains url (lit "viewerToken=")
        then Some url else None
      | _ => None
      end
    | None => None
    end in
  match strategy_1 with
  | Some url => Some url
  | None =>
    match findall m3u8_pattern html_content with
    | m :: _ => Some m
    | [] => scan_scripts (find_all_script soup)
    end
  end.

(** [URLExtractor._extract_title]. *)
Definition _extract_title (soup : BeautifulSoup) : option str :=
  let strategy_1 :=
    match find_meta soup (lit "og:title") with
    | Some og_title =>
      match tag_get og_title (lit "content") with
      | Some (c :: t) => Some (c :: t)
      | _ => None
      end
    | None => None
    end in
  match strategy_1 with
  | Some t => Some t
  | None =>
    match find_title soup with
    | Some title_tag =>
      match string_ title_tag with
      | Some (c :: t) => Some (strip (c :: t))
      | _ => None
      end
    | None => None
    end
  end.

(** The patterns of [extract_episode_number], all under
    [re.IGNORECASE].  The two Chinese characters of the last one, U+7B2C
    and U+96C6, have no case. *)
Definition patterns : list regex :=
  [ letters "Episode" ++ [Many Space 1; Group Digit 1];
    letters "Ep" ++ [Many Space 1; Group Digit 1];
    letters "E" ++ [Group Digit 1];
    [Chr 31532; Many Space 0; Group Digit 1; Many Space 0; Chr 38598] ].

(** [int(match.group(1))]. *)
Definition int_group1 (m : Match) : result Z :=
  match group1 m with
  | Some g => int g
  | None => Raise TypeError
  end.

Fixpoint first_match (ps : list regex) (title : str) : result (option Z) :=
  match ps with
  | [] => Return None
  | pattern :: ps' =>
    match search pattern title with
    | Some m => n ← int_group1 m; Return (Some n)
    | None => first_match ps' title
    end
  end.

(** [URLExtractor.extract_episode_number]. *)
Definition extract_episode_number (title : str) : result (option Z) :=
  first_match patterns title.

Section platform.
Context `{!Platform}.

(** [URLExtractor.extract_from_html]; a tuple is the list of its
    components. *)
Definition extract_from_html (html_content : str) : list (option str) :=
  let soup := soup_of html_content in
  let m3u8_url := _extract_m3u8_url soup html_content in
  let title := _extract_title soup in
  match m3u8_url with
  | Some (c :: u) => [Some (c :: u); title; None]
  | _ => [None; title; Some (lit "m3u8 URL not found in HTML")]
  end.

(** [URLExtractor.extract_from_file]. *)
Definition extract_from_file (env : fs.faults) (files : fs.filesystem)
    (file_path : str) : list (option str) :=
  let path := fs.Path file_path in
  match fs.Path_exists env files path with
  | Raise e => [None; None; Some (describe e)]
  | Return false => [None; None; Some (lit "File not found: " ++ file_path)]
  | Return true =>
    match fs.read_text json_text env path files with
    | (Return html_content, _) => extract_from_html html_content
    | (Raise e, _) => [None; None; Some (describe e)]
    end
  end.

(** [URLExtractor.extract_from_url]: each of its return statements
    builds a tuple of three components. *)
Definition extract_from_url (url : str) : list (option str) :=
  let '(m3u8_url, title, error) := browse url in
  [m3u8_url; title; error].
End platform.
End unicode.
End extractor.

(** ** preprocessor.py *)

Module preprocessor.
Import py cache extractor.

(** The lines [process_url_list] and [_read_url_list] print. *)
Inductive line :=
| File_not_found (file_path : str)
| Error_reading_URL_list (e : exn)
| No_URLs_found_in_file
| Found_URLs_to_process (n : nat)
| Processing (i n : nat) (item : str)
| Failed_to_extract (item : str)
| Episode_details (entry : CacheEntry)
| Successfully_cached (n : nat) (cache_file : str)
| Failed_to_save_cache
| Error_processing_URLs (e : exn).

(** The lines of a text file, without their terminators. *)
Definition readlines (text : str) : list str :=
  match reverse (split 10 text) with
  | [] :: l => reverse l
  | l => reverse l
  end.

Section platform.
Context `{!Unicode, !Platform}.

(** The test of the loop of [_read_url_list] on a stripped line: the
    existence of the path is asked only of a line that does not start
    with [http]. *)
Definition accepts (env : fs.faults) (files : fs.filesystem) (line : str)
    : result bool :=
  if startswith line (lit "http") then Return true
  else
    found ← fs.Path_exists env files (fs.Path line);
    Return (found || endswith line (lit ".html")).

(** The loop of [_read_url_list]: the items kept, or the exception that
    ends it. *)
Fixpoint read_items (env : fs.faults) (files : fs.filesystem)
    (lines : list str) : result (list str) :=
  match lines with
  | [] => Return []
  | line :: rest =>
    let line := strip line in
    keep ← accepts env files line;
    items ← read_items env files rest;
    Return (if (keep : bool) then line :: items else items)
  end.

(** [Preprocessor._read_url_list]. *)
Definition _read_url_list (env : fs.faults) (files : fs.filesystem)
    (file_path : str) : list str * list line :=
  let path := fs.Path file_path in
  match fs.Path_exists env files path with
  | Raise e => ([], [Error_reading_URL_list e])
  | Return false => ([], [File_not_found file_path])
  | Return true =>
    match fs.read_text json_text env path files with
    | (Return text, _) =>
      match read_items env files (readlines text) with
      | Return items => (items, [])
      | Raise e => ([], [Error_reading_URL_list e])
      end
    | (Raise e, _) => ([], [Error_reading_URL_list e])
    end
  end.

(** One turn of the loop of [process_url_list] on the item at position
    [i] of [n]: the cache after it and the lines printed, or the
    exception that ends the loop. *)
Definition process_item (verbose : bool) (env : fs.faults)
    (files : fs.filesystem) (now : str) (i n : nat) (item : str)
    (c : Cache) : result Cache * list line :=
  let out := if verbose then [Processing i n item] else [] in
  match
    fs.Path_exists env files (fs.Path item) ≫= λ is_file : bool,
    unpack2 (if is_file then extract_from_file env files item
             else extract_from_url item)
  with
  | Raise e => (Raise e, out)
  | Return (m3u8_url, title) =>
    match m3u8_url with
    | Some (ch :: u) =>
      let m3u8_url := ch :: u in
      match
        match title with
        | Some (t :: tl) =>
          extracted_num ← extract_episode_number (t :: tl);
          match extracted_num with
          | Some 0 | None => Return (Z.of_nat i)
          | Some k => Return k
          end
        | _ => Return (Z.of_nat i)
        end
      with
      | Raise e => (Raise e, out)
      | Return episode_number =>
        let title :=
          match title with
          | Some (t :: tl) => t :: tl
          | _ => lit "Episode " ++ str_of_int episode_number
          end in
        (* [episode_url=url]: no name [url] is bound in this function *)
        match (Raise NameError : result str) with
        | Raise e => (Raise e, out)
        | Return url =>
          let entry :=
            CacheEntry_init now episode_number title url m3u8_url None in
          (Return (add_episode c entry),
           out ++ if verbose then [Episode_details entry] else [])
        end
      end
    | _ => (Return c, out ++ [Failed_to_extract item])
    end
  end.

Fixpoint process_items (verbose : bool) (env : fs.faults)
    (files : fs.filesystem) (now : nat → str) (i n : nat)
    (items : list str) (c : Cache) : result Cache * list line :=
  match items with
  | [] => (Return c, [])
  | item :: rest =>
    match process_item verbose env files (now i) i n item c with
    | (Raise e, out) => (Raise e, out)
    | (Return c', out) =>
      let '(r, out') := process_items verbose env files now (S i) n rest c' in
      (r, out ++ out')
    end
  end.

(** [Preprocessor.process_url_list]: the returned flag, the file system
    after the call and the lines printed. *)
Definition process_url_list (verbose : bool) (env : fs.faults)
    (now : nat → str) (url_list_file cache_file : str) (season : Z)
    (files : fs.filesystem) : bool * fs.filesystem * list line :=
  let '(urls, out) := _read_url_list env files url_list_file in
  match urls with
  | [] => (false, files, out ++ [No_URLs_found_in_file])
  | _ :: _ =>
    let out :=
      out ++ if verbose then [Found_URLs_to_process (length urls)] else [] in
    let c := set_season (Cache_init (fs.Path cache_file)) (Some season) in
    match process_items verbose env files now 1 (length urls) urls c with
    | (Raise e, out') =>
      (false, files, out ++ out' ++ [Error_processing_URLs e])
    | (Return c, out') =>
      let '(saved, files') := save env c files in
      if saved then
        (true, files',
         out ++ out' ++ [Successfully_cached (length (episodes c)) cache_file])
      else (false, files', out ++ out' ++ [Failed_to_save_cache])
    end
  end.
End platform.
End preprocessor.

(** ** cli.py: the episode selector *)

Module cli.
Import py cache.

(** The warnings [parse_episode_selection] prints. *)
Inductive warning :=
| Invalid_range (part : str)
| Episode_not_found (ep_num : Z)
| Invalid_episode_number (part : str).

Section unicode.
Context `{!Unicode}.

(** [start, end = map(int, pieces)]: every way this can fail, a piece
    that is no integer or a number of pieces other than two, raises
    [ValueError]. *)
Definition unpack2_int (pieces : list str) : result (Z * Z) :=
  match pieces with
  | [a; b] => start ← int a; stop ← int b; Return (start, stop)
  | _ => Raise ValueError
  end.

(** The body of the loop on one part: the entries to append and the
    warnings printed. *)
Definition select_part (c : Cache) (part : str)
    : result (list CacheEntry * list warning) :=
  let part := strip part in
  if contains part (lit "-") then
    try_except
      ('(start, stop) ← unpack2_int (split 45 part);
       Return (get_episodes_in_range c start stop, []))
      is_ValueError
      (λ _, Return ([], [Invalid_range part]))
  else
    try_except
      (ep_num ← int part;
       match get_episode c ep_num with
       | Some ep => Return ([ep], [])
       | None => Return ([], [Episode_not_found ep_num])
       end)
      is_ValueError
      (λ _, Return ([], [Invalid_episode_number part])).

Fixpoint select_parts (c : Cache) (parts : list str)
    (episodes : list CacheEntry) (out : list warning)
    : result (list CacheEntry * list warning) :=
  match parts with
  | [] => Return (episodes, out)
  | part :: rest =>
    '(found, warnings) ← select_part c part;
    select_parts c rest (episodes ++ found) (out ++ warnings)
  end.

(** [parse_episode_selection]: the list returned and the warnings
    printed, or the exception that escapes. *)
Definition parse_episode_selection (selection : str) (c : Cache)
    : result (list CacheEntry * list warning) :=
  select_parts c (split 44 selection) [] [].
End unicode.

(** The automatic cache of the single and multiple download modes. *)

(** The lines [_save_to_auto_cache] prints when [verbose] is set. *)
Inductive cache_line :=
| Cached_to (cache_path : str)
| Cached_episode (episode_number : Z) (title : option str)
| Warning_failed_to_save
| Warning_failed_to_cache (e : exn).

Definition AUTO_CACHE_PATH : str := lit ".cache/downloads.json".

Section auto_cache.
Import extractor.
Context `{!Unicode}.

(** The title of the entry: the given one, or [Episode] and the number
    when there is none or it is empty. *)
Definition title_or_default (title : option str) (episode_number : Z) : str :=
  match title with
  | Some (t :: tl) => t :: tl
  | _ => lit "Episode " ++ str_of_int episode_number
  end.

(** [_save_to_auto_cache]: the file system after the call and the lines
    printed.  [in_package] tells whether the module was imported as part
    of its package: in a module run as a script, the relative import at
    the head of the [try] raises [ImportError].  [env_load] and
    [env_save] are what the operating system does to the call of [load]
    and to the call of [save], [now_load] is the clock of [load] and
    [now] the clock when the entry is built. *)
Definition _save_to_auto_cache (in_package : bool)
    (env_load env_save : fs.faults)
    (now_load : nat → str) (now : str) (source_url m3u8_url : str)
    (title : option str) (verbose : bool) (files : fs.filesystem)
    : fs.filesystem * list cache_line :=
  let failed e := (files, if verbose then [Warning_failed_to_cache e] else []) in
  if negb in_package then failed ImportError
  else
    let c := Cache_init (fs.Path AUTO_CACHE_PATH) in
    match load_call env_load now_load c files with
    | (Raise e, _) => failed e
    | (Return _, c) =>
      match
        match title with
        | Some (t :: tl) =>
          extracted_num ← extract_episode_number (t :: tl);
          match extracted_num with
          | Some 0 | None => Return 1
          | Some k => Return k
          end
        | _ => Return 1
        end
      with
      | Raise e => failed e
      | Return episode_number =>
        let entry :=
          CacheEntry_init now episode_number
            (title_or_default title episode_number) source_url m3u8_url
            None in
        let c := add_episode c entry in
        let '(saved, files') := save env_save c files in
        (files',
         if verbose then
           if saved then
             [Cached_to AUTO_CACHE_PATH; Cached_episode episode_number title]
           else [Warning_failed_to_save]
         else [])
      end
    end.
End auto_cache.
End cli.


(** ** Notions used in the statements *)

Section statements.
Import py json fs cache.

(** At path [p] the second file system holds what the first held, or a
    directory where the first held nothing. *)
Definition only_new_dirs (files files' : filesystem) (p : path) : Prop :=
  files' !! p = files !! p ∨ (files !! p = None ∧ files' !! p = Some Dir).

(** The path of the temporary file of [save] in directory [d], for the
    drawn name [r]. *)
Definition temp_path (d : path) (r : str) : path :=
  d ++ [lit ".tmp_" ++ r ++ lit ".json"].

(** A step of [save] fails: a system call is refused, or the data cannot
    be encoded. *)
Definition failing (env : faults) (c : Cache) : Prop :=
  mkdir_fails env = true ∨ mkstemp_fails env = true ∨
  write_fails env = true ∨ encodable (data_of c) = false ∨
  replace_fails env = true.

(** Whenever [save] fails, it leaves no file behind. *)
Definition removes_temporary (env : faults) (c : Cache)
    (files : filesystem) : Prop :=
  ∀ ok files', save env c files = (ok, files') → ok = false →
    ∀ p, only_new_dirs files files' p.

(** The file at [p] cannot be read or parsed. *)
Definition unreadable (env : faults) (files : filesystem) (p : path) : Prop :=
  ∃ e, (read_json env p files).1 = Raise e.


(** The entry [e] has the fields of the JSON object [item]; a missing or
    empty [extracted_at] leaves the time of [e] open. *)
Definition same_fields (item : value) (e : CacheEntry) : Prop :=
  getitem item (lit "episode_number") = Return (JInt (episode_number e)) ∧
  getitem item (lit "title") = Return (JStr (title e)) ∧
  getitem item (lit "episode_url") = Return (JStr (episode_url e)) ∧
  getitem item (lit "m3u8_url") = Return (JStr (m3u8_url e)) ∧
  (get item (lit "extracted_at") JNull = Return (JStr (extracted_at e)) ∨
   ∃ v, get item (lit "extracted_at") JNull = Return v ∧ truthy v = false).

Section unicode.
Context `{!Unicode}.
Import re extractor cli.

(** Strategy 1 of the manifest extraction: the content of the [og:url]
    metadata tag, accepted when it holds both markers. *)
Definition metadata_url (soup : BeautifulSoup) : option str :=
  og_url ← find_meta soup (lit "og:url");
  url ← tag_get og_url (lit "content");
  if contains url (lit "hls.m3u8") && contains url (lit "viewerToken=")
  then Some url else None.

(** Strategy 2: the first match of the manifest pattern in a text. *)
Definition first_in_text (text : str) : option str :=
  whole <$> search m3u8_pattern text.

(** [u] is what a scan of the text for the pattern returns: a match
    before which no match starts, and whose last repetition, over the
    class [k], takes every character it can. *)
Definition first_greedy_match (r : regex) (k : cls) (s u : str)
    (g : option str) : Prop :=
  ∃ pre post,
    s = pre ++ u ++ post ∧ matches r u g ∧
    (∀ pre' u' post' g',
       s = pre' ++ u' ++ post' → matches r u' g' →
       (length pre ≤ length pre')%nat) ∧
    ∀ c, head post = Some c → in_cls k c = false.

(** Strategy 3: the first match in the first script block that has
    one. *)
Definition first_in_scripts (scripts : list Tag) : option str :=
  head (omap (λ script, string_ script ≫= first_in_text) scripts).

(** The number a string of decimal digits denotes. *)
Definition decimal_value (w : str) : Z :=
  foldl (λ acc c, 10 * acc + default 0 (decimal c)) 0 w.

Definition digits_from (acc : Z) (w : str) : Z :=
  foldl (λ a c, 10 * a + default 0 (decimal c)) acc w.


(** A pattern whose group 1 is a run of one or more digits. *)
Definition no_group (a : atom) : Prop :=
  match a with
  | Group _ _ => False
  | _ => True
  end.

Definition digit_group (p : regex) : Prop :=
  ∃ pre post, Forall no_group pre ∧ p = pre ++ Group Digit 1 :: post.

(** The terms of a selection expression: a range [A-B], a single
    number [N], or anything else. *)
Inductive term :=
| Range (a b : Z)
| Single (n : Z)
| Malformed.

Definition classify (part : str) : term :=
  if contains (strip part) (lit "-") then
    match split 45 (strip part) with
    | [a; b] =>
      match int a, int b with
      | Return x, Return y => Range x y
      | _, _ => Malformed
      end
    | _ => Malformed
    end
  else
    match int (strip part) with
    | Return n => Single n
    | Raise _ => Malformed
    end.

Definition term_episodes (c : Cache) (part : str) : list CacheEntry :=
  match classify part with
  | Range a b => get_episodes_in_range c a b
  | Single n =>
    match get_episode c n with
    | Some ep => [ep]
    | None => []
    end
  | Malformed => []
  end.

Definition term_warnings (c : Cache) (part : str) : list warning :=
  match classify part with
  | Range a b => []
  | Single n =>
    match get_episode c n with
    | Some ep => []
    | None => [Episode_not_found n]
    end
  | Malformed =>
    if contains (strip part) (lit "-") then [Invalid_range (strip part)]
    else [Invalid_episode_number (strip part)]
  end.
End unicode.
End statements.

(** ** Notions used in the further properties *)

Section further_statements.
Import py json fs cache.

(** The keys [from_dict] reads, and those it requires. *)
Definition field_names : list str :=
  [lit "episode_number"; lit "title"; lit "episode_url"; lit "m3u8_url";
   lit "extracted_at"].

Definition required_names : list str :=
  [lit "episode_number"; lit "title"; lit "episode_url"; lit "m3u8_url"].

(** An item that [from_dict] cannot decode: it is not an object, or it
    lacks a required key. *)
Definition undecodable (item : value) : Prop :=
  (∀ kvs, item ≠ JDict kvs) ∨
  ∃ kvs k, item = JDict kvs ∧ k ∈ required_names ∧ assoc k kvs = None.

(** The season of a document: none when the key is absent or holds
    [null], the number when it holds one. *)
Definition document_season (kvs : list (str * value)) (s : option Z) : Prop :=
  (assoc (lit "season") kvs = None ∧ s = None) ∨
  (assoc (lit "season") kvs = Some JNull ∧ s = None) ∨
  (∃ n, assoc (lit "season") kvs = Some (JInt n) ∧ s = Some n).

(** The episodes of a document cannot be decoded: the value under the
    key cannot be iterated, or one of its items cannot be decoded. *)
Definition bad_episodes (kvs : list (str * value)) : Prop :=
  ∃ eps, assoc (lit "episodes") kvs = Some eps ∧
    ((∃ e, iter eps = Raise e) ∨
     ∃ items item, iter eps = Return items ∧ item ∈ items ∧ undecodable item).

(** The file at [p] is there and [load] cannot take a cache from it: it
    cannot be read or parsed, or its document is not an object, or the
    episodes of its document cannot be decoded. *)
Definition unloadable (env : faults) (files : filesystem) (p : path) : Prop :=
  exists_ files p = true ∧
  (unreadable env files p ∨
   ∃ v, (read_json env p files).1 = Return v ∧
        ((∀ kvs, v ≠ JDict kvs) ∨
         ∃ kvs s, v = JDict kvs ∧ document_season kvs s ∧ bad_episodes kvs)).

Section unicode.
Context `{!Unicode}.
Import re extractor cli.

(** A character the manifest pattern lets a URL hold: neither a double
    quote nor white space. *)
Definition url_char (c : char) : Prop := c ≠ 34 ∧ isspace c = false.

(** The same test on an ASCII character. *)
Definition ascii_url_char (c : char) : bool :=
  (c <? 128) && negb (c =? 34) &&
  negb (((9 <=? c) && (c <=? 13)) || ((28 <=? c) && (c <=? 31)) || (c =? 32)).

(** A string that neither starts nor ends with white space. *)
Definition trimmed (s : str) : Prop :=
  ∀ c, head s = Some c ∨ last s = Some c → isspace c = false.

(** A string of white space only. *)
Definition blank (s : str) : Prop := Forall (λ c, isspace c = true) s.

(** The number under which [_save_to_auto_cache] files a title. *)
Definition auto_number (title : option str) : result Z :=
  match title with
  | Some (t :: tl) =>
    extracted_num ← extract_episode_number (t :: tl);
    match extracted_num with
    | Some 0 | None => Return 1
    | Some k => Return k
    end
  | _ => Return 1
  end.
End unicode.
End further_statements.

(** ** Sample data *)

Module sample.
Import py fs cache.

(** The tables of an interpreter that knows ASCII only. *)
#[local] Instance ascii_only : Unicode.
Proof.
  refine {| uni_isspace := λ _, false;
            uni_decimal := λ _, None;
            uni_ieq := λ _ _, false |}; discriminate.
Defined.

Definition entry (n : Z) : CacheEntry :=
  {| episode_number := n;
     title := lit "Episode " ++ str_of_int n;
     episode_url := lit "https://watch.thechosen.tv/video/" ++ str_of_int n;
     m3u8_url := lit "https://cdn.example/" ++ str_of_int n ++
                 lit "/hls.m3u8?viewerToken=abc";
     extracted_at := lit "2025-01-01T00:00:00" |}.

Definition location : path := [lit "d"; lit "s1.json"].

Definition store (numbers : list Z) : Cache :=
  {| cache_file := location; season := Some 1; episodes := entry <$> numbers |}.

Definition clock (i : nat) : str := lit "2025-06-01T12:00:00".

Definition no_faults : faults :=
  {| mkdir_fails := false;
     mkstemp_fails := false;
     mkstemp_names := [lit "x1"];
     write_fails := false;
     written := Text [];
     replace_fails := false;
     unlink_fails := false;
     read_fails := false;
     unexaminable := λ _, false |}.

(** A page whose metadata, text and script each hold a manifest URL. *)
Definition metadata_manifest : str :=
  lit "https://cdn.example/7/hls.m3u8?viewerToken=meta".

Definition page_text : str :=
  lit "<a href='https://cdn.example/7/hls.m3u8?viewerToken=text'>".

Definition page : extractor.BeautifulSoup :=
  {| extractor.find_meta := λ property,
       if decide (property = lit "og:url") then
         Some {| extractor.attrs := [(lit "property", lit "og:url");
                                     (lit "content", metadata_manifest)];
                 extractor.string_ := None |}
       else None;
     extractor.find_title := None;
     extractor.find_all_script :=
       [ {| extractor.attrs := [];
            extractor.string_ :=
              Some (lit "play('https://cdn.example/7/hls.m3u8?viewerToken=script')") |} ] |}.

(** A list of two sources, neither of them a local file. *)
Definition url_list : filesystem :=
  {[ [lit "urls.txt"] :=
       File (Text (lit "https://watch.thechosen.tv/video/1" ++ [10] ++
                   lit "https://watch.thechosen.tv/video/2" ++ [10])) ]}.

(** The disk fills up while the temporary file is written, and the file
    cannot be removed either. *)
Definition disk_full : faults :=
  {| mkdir_fails := false;
     mkstemp_fails := false;
     mkstemp_names := [lit "x1"];
     write_fails := true;
     written := Text (lit "{");
     replace_fails := false;
     unlink_fails := true;
     read_fails := false;
     unexaminable := λ _, false |}.

(** A platform without a network: every page is empty and no browser
    can be launched. *)
#[local] Instance offline : extractor.Platform :=
  {| extractor.soup_of := λ _,
       {| extractor.find_meta := λ _, None;
          extractor.find_title := None;
          extractor.find_all_script := [] |};
     extractor.browse := λ _, (None, None, Some (lit "Failed to launch browser"));
     extractor.json_text := λ _, [];
     extractor.describe := λ _, lit "error" |}.

(** A page without metadata: the title and the manifest URL are in the
    document itself. *)
Definition scanned_manifest : str :=
  lit "https://cdn.example/7/hls.m3u8?viewerToken=text'>".

Definition bare_page : extractor.BeautifulSoup :=
  {| extractor.find_meta := λ _, None;
     extractor.find_title :=
       Some {| extractor.attrs := [];
               extractor.string_ := Some (lit "  Episode 3 ") |};
     extractor.find_all_script := [] |}.

(** A page whose only manifest URL is in its third script block. *)
Definition script_manifest : str :=
  lit "https://cdn.example/7/hls.m3u8?viewerToken=script".

Definition script_page : extractor.BeautifulSoup :=
  {| extractor.find_meta := λ _, None;
     extractor.find_title := None;
     extractor.find_all_script :=
       [ {| extractor.attrs := []; extractor.string_ := None |};
         {| extractor.attrs := [];
            extractor.string_ := Some (lit "var player = null;") |};
         {| extractor.attrs := [];
            extractor.string_ :=
              Some (lit "src = " ++ script_manifest ++ lit " ;") |} ] |}.


(** A list file with an empty line between two sources. *)
Definition list_text : str :=
  lit "a.html" ++ [10; 10] ++ lit "b.html" ++ [10].

Definition spaced_list : filesystem :=
  {[ [lit "urls.txt"] := File (Text list_text) ]}.

(** A cache document with an entry that is not an object. *)
Definition bad_entry : list (str * json.value) :=
  [ (lit "season", json.JInt 2);
    (lit "episodes", json.JList [to_dict (entry 1); json.JNull]) ].

(** An automatic cache that holds this document. *)
Definition damaged_auto_cache : filesystem :=
  {[ [lit ".cache"; lit "downloads.json"] :=
       File (Json (json.JDict bad_entry)) ]}.
End sample.

(** * Properties *)

(** ** The builtins on small inputs *)

Section builtin_checks.
Import py.
Context `{!Unicode}.

Example int_spaces_and_underscore : int (lit " 12_3 ") = Return 123.
Proof. reflexivity. Qed.

Example int_negative : int (lit "-7") = Return (-7).
Proof. reflexivity. Qed.

Example int_double_underscore : int (lit "1__2") = Raise ValueError.
Proof. reflexivity. Qed.

Example int_empty : int [] = Raise ValueError.
Proof. reflexivity. Qed.

Example split_keeps_empty_pieces :
  split 44 (lit "a,,b,") = [lit "a"; []; lit "b"; []].
Proof. reflexivity. Qed.

Example strip_both_ends : strip (lit "  a b ") = lit "a b".
Proof. reflexivity. Qed.

Example sort_is_stable :
  sort fst [(3, 1); (1, 2); (3, 0); (1, 3)] = [(1, 2); (1, 3); (3, 1); (3, 0)].
Proof. reflexivity. Qed.

Example readlines_last_line :
  preprocessor.readlines (lit "a" ++ [10] ++ [10] ++ lit "b" ++ [10]) =
    [lit "a"; []; lit "b"].
Proof. reflexivity. Qed.

Example Path_parts : fs.Path (lit "/tmp//x/./y.json") =
  [lit "/"; lit "tmp"; lit "x"; lit "y.json"].
Proof. reflexivity. Qed.

Example search_is_greedy :
  re.search (re.letters "E" ++ [re.Group re.Digit 1]) (lit "S01E123x") =
    Some {| re.whole := lit "E123"; re.group1 := Some (lit "123") |}.
Proof. reflexivity. Qed.
End builtin_checks.

(** ** Properties of [list.sort] *)

Section sort_facts.
Context {A : Type} (key : A → Z).

Definition ascending (l : list A) : Prop :=
  StronglySorted (λ x y, key x ≤ key y) l.

Definition strictly_ascending (l : list A) : Prop :=
  StronglySorted (λ x y, key x < key y) l.

Lemma insert_by_perm x l : py.insert_by key x l ≡ₚ x :: l.
Proof.
  induction l as [|y l IH]; simpl; [done|].
  destruct (key x <=? key y); [done|].
  rewrite IH. apply Permutation_swap.
Qed.

Lemma sort_perm l : py.sort key l ≡ₚ l.
Proof.
  induction l as [|x l IH]; simpl; [done|].
  rewrite insert_by_perm. by rewrite IH.
Qed.

Lemma insert_by_ascending x l :
  ascending l → ascending (py.insert_by key x l).
Proof.
  unfold ascending. induction l as [|y l IH]; simpl; intros Hl.
  - repeat constructor.
  - apply StronglySorted_cons in Hl as [Hy Hl].
    destruct (Z.leb_spec (key x) (key y)) as [Hxy|Hxy].
    + apply StronglySorted_cons. split.
      * constructor; [done|].
        eapply Forall_impl; [exact Hy|]. simpl. intros. lia.
      * by apply StronglySorted_cons.
    + apply StronglySorted_cons. split; [|by apply IH].
      rewrite insert_by_perm. constructor; [lia|done].
Qed.

Lemma sort_ascending l : ascending (py.sort key l).
Proof.
  induction l as [|x l IH]; simpl.
  - constructor.
  - by apply insert_by_ascending.
Qed.

Lemma insert_by_head x l :
  Forall (λ y, key x ≤ key y) l → py.insert_by key x l = x :: l.
Proof.
  destruct l as [|y l]; simpl; [done|].
  intros Hl. apply Forall_cons in Hl as [Hy _].
  by rewrite (proj2 (Z.leb_le _ _) Hy).
Qed.

(** Sorting a list that is in order changes nothing. *)
Lemma sort_ascending_id l : ascending l → py.sort key l = l.
Proof.
  unfold ascending. induction l as [|x l IH]; simpl; [done|].
  intros Hl. apply StronglySorted_cons in Hl as [Hx Hl].
  rewrite IH by done. by apply insert_by_head.
Qed.

(** The sort is stable: it commutes with the removal of entries. *)
Lemma filter_insert_by (P : A → Prop) `{!∀ x, Decision (P x)} x l :
  ascending l →
  filter P (py.insert_by key x l) =
  if decide (P x) then py.insert_by key x (filter P l) else filter P l.
Proof.
  unfold ascending. induction l as [|y l IH]; simpl; intros Hl.
  - rewrite filter_cons, filter_nil. by destruct (decide (P x)).
  - apply StronglySorted_cons in Hl as [Hy Hl].
    destruct (Z.leb_spec (key x) (key y)) as [Hxy|Hxy].
    + rewrite filter_cons. destruct (decide (P x)); [|done].
      symmetry. apply insert_by_head.
      apply Forall_forall. intros z Hz.
      apply list_elem_of_filter in Hz as [_ Hz].
      apply elem_of_cons in Hz as [->|Hz]; [done|].
      rewrite Forall_forall in Hy. specialize (Hy z Hz). simpl in Hy. lia.
    + rewrite !filter_cons. rewrite IH by done.
      destruct (decide (P y)), (decide (P x)); simpl; try done.
      by rewrite (proj2 (Z.leb_gt _ _) Hxy).
Qed.

Lemma filter_sort (P : A → Prop) `{!∀ x, Decision (P x)} l :
  filter P (py.sort key l) = py.sort key (filter P l).
Proof.
  induction l as [|x l IH]; simpl; [done|].
  rewrite filter_insert_by by apply sort_ascending.
  rewrite filter_cons, IH. by destruct (decide (P x)).
Qed.

Lemma ascending_NoDup_strict l :
  ascending l → NoDup (key <$> l) → strictly_ascending l.
Proof.
  unfold ascending, strictly_ascending.
  induction l as [|x l IH]; simpl; intros Hl Hnd; [constructor|].
  apply StronglySorted_cons in Hl as [Hx Hl].
  apply NoDup_cons in Hnd as [Hnx Hnd].
  apply StronglySorted_cons. split; [|by apply IH].
  apply Forall_forall. intros y Hy.
  rewrite Forall_forall in Hx. specialize (Hx y Hy). simpl in Hx.
  assert (key x ≠ key y); [|lia].
  intros Heq. apply Hnx. rewrite Heq. by apply list_elem_of_fmap_2.
Qed.

Lemma strictly_ascending_NoDup l :
  strictly_ascending l → NoDup (key <$> l).
Proof.
  unfold strictly_ascending.
  induction l as [|x l IH]; simpl; intros Hl; [constructor|].
  apply StronglySorted_cons in Hl as [Hx Hl].
  apply NoDup_cons. split; [|by apply IH].
  intros Hin. apply list_elem_of_fmap in Hin as (y & Heq & Hy).
  rewrite Forall_forall in Hx. specialize (Hx y Hy). simpl in Hx. lia.
Qed.

Lemma strictly_ascending_filter (P : A → Prop) `{!∀ x, Decision (P x)} l :
  strictly_ascending l → strictly_ascending (filter P l).
Proof.
  unfold strictly_ascending.
  induction l as [|x l IH]; simpl; intros Hl; [constructor|].
  apply StronglySorted_cons in Hl as [Hx Hl].
  rewrite filter_cons. destruct (decide (P x)); [|by apply IH].
  apply StronglySorted_cons. split; [|by apply IH].
  apply Forall_forall. intros y Hy.
  apply list_elem_of_filter in Hy as [_ Hy].
  rewrite Forall_forall in Hx. by apply Hx.
Qed.
End sort_facts.

Lemma filter_none {A} (P : A → Prop) `{!∀ x, Decision (P x)} (l : list A) :
  (∀ x, ¬ P x) → filter P l = [].
Proof.
  intros HP. induction l as [|x l IH]; [done|].
  rewrite filter_cons. by destruct (decide (P x)); [destruct (HP x)|].
Qed.

(** ** The cache in memory *)

Section cache_facts.
Import cache.

Implicit Types (c : Cache) (e : CacheEntry) (l : list CacheEntry).

Lemma episodes_add_episode c e :
  episodes (add_episode c e) =
  py.sort episode_number
    (filter (λ ep, episode_number ep ≠ episode_number e) (episodes c) ++ [e]).
Proof. done. Qed.

Lemma add_episode_ascending c e :
  ascending episode_number (episodes (add_episode c e)).
Proof. rewrite episodes_add_episode. apply sort_ascending. Qed.

Lemma add_episode_strictly_ascending c e :
  strictly_ascending episode_number (episodes c) →
  strictly_ascending episode_number (episodes (add_episode c e)).
Proof.
  intros Hc. rewrite episodes_add_episode.
  apply ascending_NoDup_strict; [apply sort_ascending|].
  rewrite sort_perm, fmap_app. simpl.
  apply NoDup_app. split_and!.
  - apply strictly_ascending_NoDup.
    by apply strictly_ascending_filter.
  - intros n Hn Hn'. apply list_elem_of_singleton in Hn' as ->.
    apply list_elem_of_fmap in Hn as (ep & Heq & Hep).
    apply list_elem_of_filter in Hep as [Hne _]. congruence.
  - apply NoDup_singleton.
Qed.

Lemma add_all_strictly_ascending c l :
  strictly_ascending episode_number (episodes c) →
  strictly_ascending episode_number (episodes (foldl add_episode c l)).
Proof.
  revert c. induction l as [|e l IH]; simpl; intros c Hc; [done|].
  apply IH. by apply add_episode_strictly_ascending.
Qed.

(** C4.  Start from the empty store, add entries in any order, then add
    any further entries: the episode numbers of [get_all_episodes()] are
    strictly ascending, each entry's number smaller than the number of
    every entry after it. *)
Theorem add_episode_keeps_strictly_ascending
    (p : fs.path) (earlier later : list CacheEntry) :
  let c := foldl add_episode (foldl add_episode (Cache_init p) earlier) later in
  StronglySorted Z.lt (episode_number <$> get_all_episodes c).
Proof.
  simpl. unfold get_all_episodes.
  apply (StronglySorted_fmap episode_number
           (λ x y, episode_number x < episode_number y) Z.lt); [done|].
  do 2 apply add_all_strictly_ascending. constructor.
Qed.

(** C5.  In any store, adding [e1] and then [e2] with the same episode
    number leaves exactly one entry with that number, and it is [e2]; the
    entries with other numbers are those of the store before, in ascending
    order of their numbers (and in their former order when the store was
    in ascending order); the whole list is in ascending order. *)
Theorem add_episode_same_number_replaces c e1 e2 :
  episode_number e1 = episode_number e2 →
  let n := episode_number e2 in
  let others l := filter (λ ep, episode_number ep ≠ n) l in
  let c' := add_episode (add_episode c e1) e2 in
  filter (λ ep, episode_number ep = n) (get_all_episodes c') = [e2] ∧
  others (get_all_episodes c') =
    py.sort episode_number (others (get_all_episodes c)) ∧
  others (get_all_episodes c') =
    others (get_all_episodes (add_episode c e1)) ∧
  (ascending episode_number (get_all_episodes c) →
   others (get_all_episodes c') = others (get_all_episodes c)) ∧
  ascending episode_number (get_all_episodes c').
Proof.
  intros Heq n others c'. unfold get_all_episodes.
  assert (Hfirst : others (episodes (add_episode c e1)) =
                   py.sort episode_number (others (episodes c))).
  { rewrite episodes_add_episode. unfold others.
    rewrite filter_sort, filter_app, Heq. fold n.
    rewrite list_filter_filter_l by done.
    rewrite (filter_cons _ e1), filter_nil.
    destruct (decide (episode_number e1 ≠ n)) as [Hne|_]; [by destruct Hne|].
    by rewrite app_nil_r. }
  assert (Hc' : episodes c' =
                py.sort episode_number
                  (py.sort episode_number (others (episodes c)) ++ [e2])).
  { unfold c'. rewrite episodes_add_episode. fold n.
    by rewrite <- Hfirst. }
  assert (Hothers : others (episodes c') =
                    py.sort episode_number (others (episodes c))).
  { rewrite Hc'. unfold others.
    rewrite filter_sort, filter_app, filter_sort.
    rewrite list_filter_filter_l by done.
    rewrite (filter_cons _ e2), filter_nil.
    destruct (decide (episode_number e2 ≠ n)); [done|].
    rewrite app_nil_r. apply sort_ascending_id, sort_ascending. }
  split_and!.
  - rewrite Hc', filter_sort, filter_app, filter_sort.
    unfold others. rewrite list_filter_filter.
    rewrite filter_none by (intros ep [? ?]; done).
    rewrite (filter_cons _ e2), filter_nil.
    by destruct (decide (episode_number e2 = n)).
  - done.
  - by rewrite Hfirst.
  - intros Hasc. rewrite Hothers. apply sort_ascending_id.
    unfold ascending, others in *.
    clear -Hasc. induction (episodes c) as [|x l IH]; [constructor|].
    apply StronglySorted_cons in Hasc as [Hx Hl].
    rewrite filter_cons. destruct (decide (episode_number x ≠ n)); [|by apply IH].
    apply StronglySorted_cons. split; [|by apply IH].
    apply Forall_forall. intros y Hy.
    apply list_elem_of_filter in Hy as [_ Hy].
    rewrite Forall_forall in Hx. by apply Hx.
  - apply add_episode_ascending.
Qed.
End cache_facts.

(** ** The file system *)

Section fs_facts.
Import py fs.
Implicit Types (files : filesystem) (p d t : path) (env : faults).

Lemma only_new_dirs_refl files p : only_new_dirs files files p.
Proof. by left. Qed.

Lemma stat_None files p : stat files p = None → files !! p = None.
Proof. unfold stat. by case_match. Qed.

Lemma stat_File files p x : stat files p = Some (File x) → files !! p = Some (File x).
Proof. unfold stat. by case_match. Qed.

Lemma exists_false files p : exists_ files p = false → files !! p = None.
Proof.
  unfold exists_. destruct (stat files p) eqn:E; [done|].
  intros _. by apply stat_None.
Qed.

Lemma mkdirs_spec ps files r files' :
  mkdirs ps files = (r, files') →
  ∀ p, files' !! p = files !! p ∨
       (p ∈ ps ∧ stat files p = None ∧ files' !! p = Some Dir).
Proof.
  revert files. induction ps as [|q ps IH]; simpl; intros files Hm p.
  - left. by inversion Hm.
  - destruct (stat files q) as [[|x]|] eqn:Hq.
    + destruct (IH _ Hm p) as [->|(?&?&?)]; [by left|].
      right. split_and!; [by right|done..].
    + left. by inversion Hm.
    + destruct (IH _ Hm p) as [Hp|(Hin&Hp&Hp')].
      * destruct (decide (q = p)) as [->|Hne].
        -- right. rewrite Hp, lookup_insert_eq. split_and!; [by left|done..].
        -- left. by rewrite Hp, lookup_insert_ne.
      * destruct (decide (q = p)) as [->|Hne].
        -- right. split_and!; [by left|done..].
        -- right. split_and!; [by right| |done].
           revert Hp. unfold stat. case_match; [done|].
           by rewrite lookup_insert_ne.
Qed.

Lemma ancestors_length d p : p ∈ ancestors d → (1 ≤ length p ≤ length d)%nat.
Proof.
  unfold ancestors. intros Hp.
  apply list_elem_of_fmap in Hp as (n & -> & Hn).
  apply elem_of_seq in Hn. rewrite length_take. lia.
Qed.

Lemma ancestors_self d : d ≠ [] → d ∈ ancestors d.
Proof.
  intros Hd. unfold ancestors. apply list_elem_of_fmap.
  exists (length d). split; [by rewrite firstn_all|].
  apply elem_of_seq. destruct d; simpl in *; [done|lia].
Qed.

Lemma temp_path_stat files d r : stat files (temp_path d r) = files !! temp_path d r.
Proof.
  unfold stat, temp_path.
  rewrite !bool_decide_eq_false_2; [done|..].
  - unfold root. intros Heq. destruct d as [|? [|? ?]]; simplify_eq/=.
  - by destruct d.
Qed.

Lemma mkstemp_spec env d files r files' :
  mkstemp env d (lit ".tmp_") (lit ".json") files = (r, files') →
  (∃ e, r = Raise e ∧ files' = files) ∨
  (∃ n, r = Return (temp_path d n) ∧ n ∈ mkstemp_names env ∧
        mkstemp_fails env = false ∧
        is_dir files d = true ∧
        files !! temp_path d n = None ∧
        files' = <[temp_path d n := File (Text [])]> files).
Proof.
  unfold mkstemp. intros Hm.
  destruct (mkstemp_fails env) eqn:Hfl; [left; eexists; by inversion Hm|].
  destruct (is_dir files d) eqn:Hd; simpl in Hm; [|left; eexists; by inversion Hm].
  destruct (find _ _) as [p|] eqn:Hf; [|left; eexists; by inversion Hm].
  apply find_some in Hf as [Hin Hfree].
  apply list_elem_of_In, list_elem_of_fmap in Hin as (n & -> & Hn).
  apply negb_true_iff, exists_false in Hfree.
  right. exists n. by inversion Hm.
Qed.
End fs_facts.

Section save_facts.
Import py fs cache.
Implicit Types (files : filesystem) (p d t : path) (env : faults) (c : Cache).


Lemma save_cases env c files ok files' :
  save env c files = (ok, files') →
  let t := cache_file c in
  ∃ f1,
    (∀ p, f1 !! p = files !! p ∨
          (p ∈ ancestors (parent t) ∧ stat files p = None ∧ f1 !! p = Some Dir)) ∧
    ((ok = false ∧ files' = f1) ∨
     (∃ n x, ok = false ∧ n ∈ mkstemp_names env ∧
             f1 !! temp_path (parent t) n = None ∧
             unlink_fails env = true ∧
             files' = <[temp_path (parent t) n := File x]> f1) ∨
     (∃ n, ok = true ∧ n ∈ mkstemp_names env ∧
           ¬ failing env c ∧
           f1 !! temp_path (parent t) n = None ∧
           is_dir (<[temp_path (parent t) n := File (Json (data_of c))]> f1) t = false ∧
           files' = <[t := File (Json (data_of c))]> f1)).
Proof.
  intros Hs t. unfold save in Hs. fold t in Hs.
  unfold mbind, io_bind, mkdir_parents in Hs.
  destruct (mkdir_fails env) eqn:Hmd.
  { exists files. split; [by left|]. left. by inversion Hs. }
  destruct (mkdirs (ancestors (parent t)) files) as [[[]|e] f1] eqn:Hmk.
  2:{ exists f1. split; [by eapply mkdirs_spec|]. left. by inversion Hs. }
  exists f1. split; [by eapply mkdirs_spec|].
  destruct (mkstemp env (parent t) (lit ".tmp_") (lit ".json") f1) as [r f2] eqn:Hmt.
  apply mkstemp_spec in Hmt as [(e & -> & ->)|(n & -> & Hn & Hmf & Hd & Hfree & ->)].
  { left. by inversion Hs. }
  set (tp := temp_path (parent t) n) in *.
  assert (Htp : ∀ fs, stat fs tp = fs !! tp) by (intros; apply temp_path_stat).
  unfold try_io, write_json, replace, unlink, raise, is_Exception, is_OSError,
    mret, io_ret in Hs.
  rewrite !insert_insert_eq in Hs.
  destruct (write_fails env) eqn:Hw.
  { destruct (unlink_fails env) eqn:Hu; simpl in Hs.
    - right; left. exists n, (written env). by inversion Hs.
    - rewrite Htp, lookup_insert_eq, delete_insert_id in Hs by done.
      left. by inversion Hs. }
  destruct (json.encodable (data_of c)) eqn:He.
  2:{ destruct (unlink_fails env) eqn:Hu; simpl in Hs.
    - right; left. exists n, (written env). by inversion Hs.
    - rewrite Htp, lookup_insert_eq, delete_insert_id in Hs by done.
      left. by inversion Hs. }
  destruct (replace_fails env) eqn:Hr.
  { destruct (unlink_fails env) eqn:Hu; simpl in Hs.
    - right; left. exists n, (Json (data_of c)). by inversion Hs.
    - rewrite Htp, lookup_insert_eq, delete_insert_id in Hs by done.
      left. by inversion Hs. }
  rewrite Htp, lookup_insert_eq in Hs.
  destruct (is_dir (<[tp:=File (Json (data_of c))]> f1) t) eqn:Hdt.
  { destruct (unlink_fails env) eqn:Hu; simpl in Hs.
    - right; left. exists n, (Json (data_of c)). by inversion Hs.
    - rewrite Htp, lookup_insert_eq, delete_insert_id in Hs by done.
      left. by inversion Hs. }
  simpl in Hs. rewrite delete_insert_id in Hs by done.
  right; right. exists n. split_and!; try done; try by inversion Hs.
  unfold failing. rewrite Hmd, Hmf, Hw, He, Hr.
  intros [?|[?|[?|[?|?]]]]; done.
Qed.

Lemma new_dir_not_target files t p :
  p ∈ ancestors (parent t) → stat files p = None → p ≠ t.
Proof.
  intros Hp Hst ->. apply ancestors_length in Hp.
  unfold parent in Hp. destruct (decide (t = root)) as [->|_].
  - by unfold stat in Hst.
  - destruct t as [|x t] using rev_ind; simpl in *; [lia|].
    rewrite removelast_last, length_app in Hp. simpl in Hp. lia.
Qed.

Lemma new_dir_not_temp files t n p :
  p ∈ ancestors (parent t) → p ≠ temp_path (parent t) n.
Proof.
  intros Hp ->. apply ancestors_length in Hp.
  unfold temp_path in Hp. rewrite length_app in Hp. simpl in Hp. lia.
Qed.

Lemma mkdirs_keeps_dirs ps files r files' p :
  mkdirs ps files = (r, files') → stat files p = Some Dir → stat files' p = Some Dir.
Proof.
  intros Hm Hp. destruct (mkdirs_spec _ _ _ _ Hm p) as [Heq|(_&Hst&_)].
  - revert Hp. unfold stat. by rewrite Heq.
  - congruence.
Qed.

Lemma mkdirs_creates ps files files' p :
  mkdirs ps files = (Return (), files') → p ∈ ps → stat files' p = Some Dir.
Proof.
  revert files. induction ps as [|q ps IH]; simpl; intros files Hm Hp.
  - by apply elem_of_nil in Hp.
  - apply elem_of_cons in Hp as [->|Hp].
    + destruct (stat files q) as [[|x]|] eqn:Hq; [|done|].
      * by eapply mkdirs_keeps_dirs.
      * eapply mkdirs_keeps_dirs; [done|].
        revert Hq. unfold stat. case_match; [done|]. by rewrite lookup_insert_eq.
    + destruct (stat files q) as [[|x]|] eqn:Hq; [|done|]; by eapply IH.
Qed.

Lemma mkdirs_succeeds ps files :
  (∀ p x, p ∈ ps → files !! p ≠ Some (File x)) →
  ∃ files', mkdirs ps files = (Return (), files').
Proof.
  revert files. induction ps as [|q ps IH]; simpl; intros files Hps; [by eexists|].
  destruct (stat files q) as [[|x]|] eqn:Hq.
  - apply IH. intros p x Hp. apply Hps. by right.
  - apply stat_File in Hq. destruct (Hps q x); [by left|done].
  - apply IH. intros p x Hp. destruct (decide (q = p)) as [->|Hne].
    + by rewrite lookup_insert_eq.
    + rewrite lookup_insert_ne by done. apply Hps. by right.
Qed.

Lemma save_succeeds env c files :
  let t := cache_file c in
  ¬ failing env c →
  (∀ p x, p ∈ ancestors (parent t) → files !! p ≠ Some (File x)) →
  (∃ n, n ∈ mkstemp_names env ∧ files !! temp_path (parent t) n = None) →
  is_dir files t = false →
  ∃ files', save env c files = (true, files').
Proof.
  intros t Hnf Hanc (n & Hn & Hfree) Hdt.
  assert (mkdir_fails env = false ∧ mkstemp_fails env = false ∧
          write_fails env = false ∧ json.encodable (data_of c) = true ∧
          replace_fails env = false) as (Hmd & Hmf & Hw & He & Hr).
  { unfold failing in Hnf.
    destruct (mkdir_fails env); [tauto|].
    destruct (mkstemp_fails env); [tauto|].
    destruct (write_fails env); [tauto|].
    destruct (json.encodable (data_of c)); [|tauto].
    destruct (replace_fails env); [tauto|]. done. }
  destruct (mkdirs_succeeds _ _ Hanc) as [f1 Hmk].
  pose proof (mkdirs_spec _ _ _ _ Hmk) as Hf1.
  assert (Hd : is_dir f1 (parent t) = true).
  { unfold is_dir. destruct (decide (parent t = [])) as [->|Hne]; [done|].
    by rewrite (mkdirs_creates _ _ _ _ Hmk (ancestors_self _ Hne)). }
  assert (Htmp : ∀ m, f1 !! temp_path (parent t) m = files !! temp_path (parent t) m).
  { intros m. destruct (Hf1 (temp_path (parent t) m)) as [?|(Hin&_&_)]; [done|].
    by destruct (new_dir_not_temp files _ m _ Hin). }
  destruct (find (λ p, negb (exists_ f1 p))
              ((λ r, parent t ++ [lit ".tmp_" ++ r ++ lit ".json"]) <$> mkstemp_names env))
    as [tp|] eqn:Hfind.
  2:{ exfalso. eapply find_none in Hfind.
      2:{ apply list_elem_of_In, list_elem_of_fmap. by exists n. }
      apply negb_false_iff in Hfind. revert Hfind. unfold exists_.
      fold (temp_path (parent t) n). by rewrite temp_path_stat, Htmp, Hfree. }
  pose proof Hfind as Hfind'.
  apply find_some in Hfind' as [Hin Htpfree].
  apply list_elem_of_In, list_elem_of_fmap in Hin as (m & -> & Hm).
  fold (temp_path (parent t) m) in *.
  apply negb_true_iff, exists_false in Htpfree.
  assert (Hdt' : is_dir (<[temp_path (parent t) m := File (Json (data_of c))]> f1) t = false).
  { revert Hdt. unfold is_dir, stat.
    destruct (bool_decide (t = []) || bool_decide (t = root)); [done|].
    destruct (decide (temp_path (parent t) m = t)) as [->|Hne].
    - by rewrite lookup_insert_eq.
    - rewrite lookup_insert_ne by done.
      destruct (Hf1 t) as [->|(Hin&Hst&_)]; [done|].
      by destruct (new_dir_not_target _ _ _ Hin Hst). }
  eexists. unfold save. fold t.
  unfold mbind, io_bind, mkdir_parents. rewrite Hmd, Hmk.
  unfold mkstemp. rewrite Hmf, Hd. simpl negb. cbv iota. rewrite Hfind.
  unfold try_io, write_json, replace. rewrite Hw, He, Hr.
  rewrite insert_insert_eq, temp_path_stat, lookup_insert_eq, Hdt'.
  reflexivity.
Qed.

Lemma is_dir_special files p x :
  is_dir (<[p := File x]> files) p = false → stat (<[p := File x]> files) p = Some (File x).
Proof.
  unfold is_dir, stat.
  destruct (bool_decide (p = []) || bool_decide (p = root)); [done|].
  by rewrite lookup_insert_eq.
Qed.

(** After a successful [save] the target holds the document of the store. *)
Lemma save_true_stat env c files files' :
  save env c files = (true, files') →
  stat files' (cache_file c) = Some (File (Json (data_of c))).
Proof.
  intros Hs. apply save_cases in Hs as (f1 & _ & Hcase).
  destruct Hcase as [[? _]|[(? & ? & ? & _)|(n & _ & _ & _ & _ & Hdt & ->)]];
    [done|done|].
  apply is_dir_special. revert Hdt. unfold is_dir, stat.
  destruct (bool_decide (cache_file c = []) || bool_decide (cache_file c = root));
    [done|].
  by rewrite lookup_insert_eq.
Qed.

(** C1 (amended).  The outcome of [save], for every store, file system
    and behaviour of the operating system.
    - When a step fails, [save] returns [False]; when no step fails, no
      file is in the way of the directory, a drawn name is free and the
      target is not a directory, it returns [True].
    - After [True] the target holds the document of the whole store, and
      every other path holds what it held, or a new directory: the
      temporary file is gone.
    - After [False] a target that existed is unchanged.  When the removal
      of the temporary file did not fail, nothing but new directories
      distinguishes the file system from the one before.  In every case
      the only file that can be left is the temporary one, in the
      directory of the target, under a name that was free. *)
Theorem save_atomic env c files ok files' :
  save env c files = (ok, files') →
  let t := cache_file c in
  (failing env c → ok = false) ∧
  (¬ failing env c →
   (∀ p x, p ∈ ancestors (parent t) → files !! p ≠ Some (File x)) →
   (∃ n, n ∈ mkstemp_names env ∧ files !! temp_path (parent t) n = None) →
   is_dir files t = false →
   ok = true) ∧
  (ok = true →
     stat files' t = Some (File (Json (data_of c))) ∧
     ∀ p, p ≠ t → only_new_dirs files files' p) ∧
  (ok = false →
     (is_Some (files !! t) ∨ unlink_fails env = false →
      files' !! t = files !! t) ∧
     (unlink_fails env = false → ∀ p, only_new_dirs files files' p) ∧
     (∀ p, only_new_dirs files files' p ∨
           ∃ n x, n ∈ mkstemp_names env ∧ p = temp_path (parent t) n ∧
                  files !! p = None ∧ files' !! p = Some (File x))).
Proof.
  intros Hs t. pose proof Hs as Hsave.
  assert (Hok : ¬ failing env c →
    (∀ p x, p ∈ ancestors (parent t) → files !! p ≠ Some (File x)) →
    (∃ n, n ∈ mkstemp_names env ∧ files !! temp_path (parent t) n = None) →
    is_dir files t = false → ok = true).
  { intros H1 H2 H3 H4.
    destruct (save_succeeds env c files H1 H2 H3 H4) as [f Hf]. congruence. }
  apply save_cases in Hs as (f1 & Hf1 & Hcase). fold t in Hf1, Hcase.
  assert (Hnew : ∀ p, only_new_dirs files f1 p).
  { intros p. destruct (Hf1 p) as [?|(_&?&?)]; [by left|right].
    split; [by apply stat_None|done]. }
  assert (Ht : f1 !! t = files !! t).
  { destruct (Hf1 t) as [?|(Hin&Hst&_)]; [done|].
    by destruct (new_dir_not_target _ _ _ Hin Hst). }
  assert (Htmp : ∀ n, f1 !! temp_path (parent t) n = files !! temp_path (parent t) n).
  { intros n. destruct (Hf1 (temp_path (parent t) n)) as [?|(Hin&_&_)]; [done|].
    by destruct (new_dir_not_temp files _ n _ Hin). }
  destruct Hcase as [[-> ->]|[(n & x & -> & Hn & Hfree & Hu & ->)|(n & -> & Hn & Hnf & Hfree & Hdt & ->)]].
  - split_and!; [done|done|done|]. intros _. split_and!; [done|done|].
    intros p. left. apply Hnew.
  - split_and!; [done|done|done|]. intros _. split_and!.
    + intros [[y Hy]|Hu']; [|congruence].
      rewrite lookup_insert_ne; [done|]. intros Heq.
      rewrite Heq, Ht, Hy in Hfree. done.
    + congruence.
    + intros p. destruct (decide (p = temp_path (parent t) n)) as [->|Hne].
      * right. exists n, x. rewrite lookup_insert_eq, <- Htmp. done.
      * left. unfold only_new_dirs. rewrite lookup_insert_ne by done. apply Hnew.
  - split_and!; [done|done| |done]. intros _. split.
    + by apply (save_true_stat env c files).
    + intros p Hp. unfold only_new_dirs. rewrite lookup_insert_ne by done.
      apply Hnew.
Qed.

Lemma save_atomic_witness :
  let r := save sample.no_faults (sample.store [1; 2]) ∅ in
  r.1 = true ∧
  stat r.2 sample.location =
    Some (File (Json (data_of (sample.store [1; 2])))) ∧
  ∀ p, p ≠ sample.location → only_new_dirs ∅ r.2 p.
Proof.
  intros r.
  assert (Hok : r.1 = true) by (vm_compute; reflexivity).
  split; [exact Hok|].
  exact (proj1 (proj2 (proj2
           (save_atomic sample.no_faults (sample.store [1; 2]) ∅ r.1 r.2
              (surjective_pairing r)))) Hok).
Defined.

(** The claim as first stated fails: when the write of the temporary file
    fails and its removal fails too, [save] returns [False] and the
    temporary file stays in the directory. *)
Lemma save_temporary_can_remain :
  ¬ removes_temporary sample.disk_full (sample.store [1; 2]) ∅.
Proof.
  intros H.
  specialize (H _ _ (surjective_pairing _)).
  assert (Hok : (save sample.disk_full (sample.store [1; 2]) ∅).1 = false)
    by (vm_compute; reflexivity).
  specialize (H Hok (temp_path [lit "d"] (lit "x1"))).
  destruct H as [H|[_ H]]; vm_compute in H; discriminate.
Qed.
End save_facts.


(** ** Loading and saving the cache *)

Section load_facts.
Import py fs json cache.
Implicit Types (files : filesystem) (p d t : path) (env : faults) (c : Cache)
  (e : CacheEntry) (l : list CacheEntry).

Lemma from_dict_to_dict now e :
  extracted_at e ≠ [] → from_dict now (to_dict e) = Return e.
Proof.
  destruct e as [n t u m x]. simpl. intros Hx.
  destruct x as [|ch x]; [done|]. reflexivity.
Qed.

Lemma from_dict_same_fields now item e :
  from_dict now item = Return e → same_fields item e.
Proof.
  unfold from_dict, same_fields, mbind, result_bind.
  destruct (getitem item (lit "episode_number")) as [n|]; [|done].
  destruct (getitem item (lit "title")) as [t|]; [|done].
  destruct (getitem item (lit "episode_url")) as [u|]; [|done].
  destruct (getitem item (lit "m3u8_url")) as [m|]; [|done].
  destruct (get item (lit "extracted_at") JNull) as [x|]; [|done].
  destruct n as [| | n | | |]; simpl; try done.
  destruct t as [| | | t | |]; simpl; try done.
  destruct u as [| | | u | |]; simpl; try done.
  destruct m as [| | | m | |]; simpl; try done.
  unfold as_optional_str. destruct (truthy x) eqn:Hx.
  - destruct x as [| | | x | |]; simpl; try done.
    destruct x as [|ch x]; [done|]. intros [= <-]. simpl. split_and!; try done. by left.
  - intros [= <-]. simpl. split_and!; try done. right. by exists x.
Qed.

Lemma comprehension_to_dict now i l :
  Forall (λ e, extracted_at e ≠ []) l →
  comprehension (λ j ep, from_dict (now j) ep) i (to_dict <$> l) = Return l.
Proof.
  intros Hl. revert i. induction Hl as [|e l He _ IH]; intros i; [done|].
  rewrite fmap_cons. cbn [comprehension].
  rewrite from_dict_to_dict by done. cbn. by rewrite IH.
Qed.

Lemma comprehension_Forall2 now i items l :
  comprehension (λ j ep, from_dict (now j) ep) i items = Return l →
  Forall2 same_fields items l.
Proof.
  revert i l. induction items as [|item items IH]; intros i l; simpl.
  - intros [= <-]. constructor.
  - unfold mbind, result_bind.
    destruct (from_dict (now i) item) as [e|] eqn:He; [|done].
    destruct (comprehension _ (S i) items) as [l'|] eqn:Hl'; [|done].
    intros [= <-]. constructor; [by eapply from_dict_same_fields|by eapply IH].
Qed.


Lemma load_unreadable env now c files :
  exists_ files (cache_file c) = true → unreadable env files (cache_file c) →
  load env now c files = (false, c).
Proof.
  unfold load, unreadable. intros -> [e He]. simpl.
  by destruct (read_json env (cache_file c) files) as [[|] ?]; simplify_eq/=.
Qed.

Lemma load_document env now c files s l :
  read_fails env = false →
  stat files (cache_file c) =
    Some (File (Json (data_of {| cache_file := cache_file c; season := s; episodes := l |}))) →
  Forall (λ e, extracted_at e ≠ []) l →
  load env now c files = (true, {| cache_file := cache_file c; season := s; episodes := l |}).
Proof.
  intros Hr Hst Hl. unfold load, exists_, read_json. rewrite Hst, Hr.
  cbn [negb]. cbv iota.
  assert (Hs : get (data_of {| cache_file := cache_file c; season := s; episodes := l |})
            (lit "season") JNull ≫= as_optional_int = Return s) by by destruct s.
  rewrite Hs.
  assert (He : get (data_of {| cache_file := cache_file c; season := s; episodes := l |})
            (lit "episodes") (JList []) = Return (JList (to_dict <$> l))) by done.
  rewrite He. cbn. by rewrite comprehension_to_dict.
Qed.

Lemma load_file_order env now c files kvs items c' :
  exists_ files (cache_file c) = true →
  read_json env (cache_file c) files = (Return (JDict kvs), files) →
  assoc (lit "episodes") kvs = Some (JList items) →
  load env now c files = (true, c') →
  Forall2 same_fields items (episodes c').
Proof.
  intros Hex Hrd Hit. unfold load. rewrite Hex, Hrd. simpl. 
  destruct (as_optional_int _) as [s|]; simpl; [|done].
  rewrite Hit. simpl.
  destruct (comprehension _ 0 items) as [l|] eqn:Hl; [|done].
  intros [= <-]. simpl. by eapply comprehension_Forall2.
Qed.


Lemma read_json_exists env p files v :
  (read_json env p files).1 = Return v →
  exists_ files p = true ∧ read_json env p files = (Return v, files).
Proof.
  unfold read_json, exists_. destruct (read_fails env); [done|].
  destruct (stat files p) as [[|[j|raw]]|]; simpl; try done.
  by intros [= ->].
Qed.

Lemma from_dict_undecodable now item :
  undecodable item → ∃ ex, from_dict now item = Raise ex.
Proof.
  intros [Hno|(kvs & k & -> & Hk & Hnone)].
  - exists TypeError. destruct item; try done. by destruct (Hno kvs).
  - exists KeyError. unfold from_dict, getitem.
    unfold required_names in Hk.
    repeat (apply elem_of_cons in Hk as [->|Hk]);
      [..|by apply elem_of_nil in Hk]; rewrite ?Hnone;
      repeat match goal with
      | |- context [assoc ?k kvs] => destruct (assoc k kvs); cbn
      end; done.
Qed.

Lemma comprehension_raises {A B} (f : nat → A → result B) i (xs : list A) x :
  x ∈ xs → (∀ j, ∃ ex, f j x = Raise ex) →
  ∃ ex, comprehension f i xs = Raise ex.
Proof.
  intros Hx Hf. revert i. induction Hx as [x xs|x y xs Hx IH]; intros i; simpl.
  - destruct (Hf i) as [ex ->]. by exists ex.
  - destruct (f i y) as [b|ex]; cbn; [|by exists ex].
    destruct (IH Hf (S i)) as [ex ->]. by exists ex.
Qed.

Lemma load_non_object env now c files v :
  (read_json env (cache_file c) files).1 = Return v →
  (∀ kvs, v ≠ JDict kvs) → load env now c files = (false, c).
Proof.
  intros [Hex Hrd]%read_json_exists Hv. unfold load. rewrite Hex, Hrd.
  cbn [negb]. cbv iota. destruct v; try done. by destruct (Hv kvs).
Qed.

Lemma document_season_get kvs s :
  document_season kvs s →
  get (JDict kvs) (lit "season") JNull ≫= as_optional_int = Return s.
Proof.
  unfold get. by intros [[-> ->]|[[-> ->]|(n & -> & ->)]].
Qed.

(** A document whose episodes cannot be decoded: the season is assigned
    and the episodes are not. *)
Lemma load_bad_episodes env now c files kvs s :
  (read_json env (cache_file c) files).1 = Return (JDict kvs) →
  document_season kvs s → bad_episodes kvs →
  load env now c files = (false, set_season c s).
Proof.
  intros [Hex Hrd]%read_json_exists Hs (eps & He & Hbad). unfold load.
  rewrite Hex, Hrd. cbn [negb]. cbv iota.
  rewrite (document_season_get _ _ Hs). unfold get. rewrite He.
  cbn [default mbind result_bind]. unfold id.
  destruct Hbad as [[ex ->]|(items & item & -> & Hin & Hitem)]; [done|].
  cbn [mbind result_bind].
  destruct (comprehension_raises (λ i ep, from_dict (now i) ep) 0 items item Hin)
    as [ex ->]; [|done].
  intros j. by apply from_dict_undecodable.
Qed.

(** Whenever [load] returns [False] the file is there, and the episodes
    are those the store held. *)
Lemma load_false env now c files c' :
  load env now c files = (false, c') →
  exists_ files (cache_file c) = true ∧
  cache_file c' = cache_file c ∧ episodes c' = episodes c.
Proof.
  unfold load. destruct (exists_ files (cache_file c)); [|done]. cbn [negb].
  destruct (read_json env (cache_file c) files) as [[data|e] ?];
    [|by intros [= <-]].
  destruct (get data (lit "season") JNull ≫= as_optional_int) as [s|e];
    [|by intros [= <-]].
  destruct (_ ≫= _) as [l|e]; [done|by intros [= <-]].
Qed.





(** C6.  After a successful [save], [load] on a new store bound to the
    same location returns [True] and yields the season and the episodes
    that were saved, field for field, when every entry has a time of
    extraction. *)
Theorem save_load_round_trip env env' now c files files' :
  Forall (λ e, extracted_at e ≠ []) (episodes c) →
  save env c files = (true, files') →
  read_fails env' = false →
  load env' now (Cache_init (cache_file c)) files' = (true, c).
Proof.
  intros Hl Hs Hr.
  pose proof (save_true_stat _ _ _ _ Hs) as Hst.
  destruct c as [t s l]. simpl in *.
  by apply (load_document env' now (Cache_init t) files' s l).
Qed.

Lemma save_load_round_trip_witness :
  let c := sample.store [3; 1; 1] in
  let r := save sample.no_faults c ∅ in
  load sample.no_faults sample.clock (Cache_init (cache_file c)) r.2 = (true, c).
Proof.
  intros c r.
  assert (Hok : r.1 = true) by (vm_compute; reflexivity).
  apply (save_load_round_trip sample.no_faults sample.no_faults
           sample.clock c ∅ r.2).
  - vm_compute. repeat constructor; discriminate.
  - exact (eq_trans (surjective_pairing r) (f_equal (λ b, (b, r.2)) Hok)).
  - reflexivity.
Defined.

(** C10.  [load] takes the episodes of the file as they come.
    - When [load] succeeds on a JSON object whose [episodes] is an array,
      the store has one entry for each item of the array, in the order of
      the array, with the fields of that item.
    - A file that holds the document of any list of entries, in any order
      and with any repetition of numbers, is loaded as exactly that list,
      so [get_all_episodes()] is out of order or has duplicates when the
      file is.
    - After any [add_episode] the list is in ascending order again. *)
Theorem load_keeps_file_order :
  (∀ env now c files kvs items c',
     exists_ files (cache_file c) = true →
     read_json env (cache_file c) files = (Return (JDict kvs), files) →
     assoc (lit "episodes") kvs = Some (JList items) →
     load env now c files = (true, c') →
     Forall2 same_fields items (get_all_episodes c')) ∧
  (∀ env now c files s l,
     read_fails env = false →
     stat files (cache_file c) =
       Some (File (Json (data_of
         {| cache_file := cache_file c; season := s; episodes := l |}))) →
     Forall (λ e, extracted_at e ≠ []) l →
     ∃ c', load env now c files = (true, c') ∧ get_all_episodes c' = l) ∧
  (∀ c e, ascending episode_number (get_all_episodes (add_episode c e))).
Proof.
  split_and!.
  - intros. by eapply load_file_order.
  - intros env now c files s l Hr Hst Hl. eexists. split.
    + by apply load_document.
    + done.
  - apply add_episode_ascending.
Qed.

Lemma load_keeps_file_order_witness :
  let c := sample.store [] in
  let files : filesystem :=
    {[ sample.location := File (Json (data_of (sample.store [2; 1; 2]))) ]} in
  ∃ c', load sample.no_faults sample.clock c files = (true, c') ∧
        episode_number <$> get_all_episodes c' = [2; 1; 2].
Proof.
  intros c files.
  destruct (proj1 (proj2 load_keeps_file_order)
              sample.no_faults sample.clock c files (Some 1)
              (sample.entry <$> [2; 1; 2])) as (c' & Hl & Hc').
  - reflexivity.
  - vm_compute. reflexivity.
  - vm_compute. repeat constructor; discriminate.
  - exists c'. split; [exact Hl|]. rewrite Hc'. reflexivity.
Defined.
End load_facts.

(** ** Pattern matching *)

Section re_facts.
Import py re.
Context `{!Unicode}.
Implicit Types (r : regex) (s w : str) (g : option str).

Lemma backtrack_sound {R} (try : nat → option R) min n x :
  backtrack try min n = Some x → ∃ k, (min ≤ k ≤ n)%nat ∧ try k = Some x.
Proof.
  induction n as [|n IH]; simpl.
  - destruct (Nat.ltb_spec 0 min); [done|].
    destruct (try 0%nat) eqn:E; [|done]. intros [= <-]. exists 0%nat. split; [lia|done].
  - destruct (Nat.ltb_spec (S n) min); [done|].
    destruct (try (S n)) eqn:E.
    + intros [= <-]. exists (S n). split; [lia|done].
    + intros Hb. destruct (IH Hb) as (k & Hk & Hx). exists k. split; [lia|done].
Qed.

Lemma backtrack_complete {R} (try : nat → option R) min n k :
  (min ≤ k ≤ n)%nat → is_Some (try k) → is_Some (backtrack try min n).
Proof.
  intros Hk Hx. induction n as [|n IH]; simpl.
  - assert (k = 0)%nat as -> by lia.
    destruct (Nat.ltb_spec 0 min); [lia|]. by destruct (try 0%nat).
  - destruct (Nat.ltb_spec (S n) min); [lia|].
    destruct (try (S n)) eqn:E; [done|].
    apply IH. destruct (decide (k = S n)) as [->|]; [|lia].
    rewrite E in Hx. by destruct Hx.
Qed.

Lemma backtrack_None {R} (try : nat → option R) min n :
  backtrack try min n = None → ∀ k, (min ≤ k ≤ n)%nat → try k = None.
Proof.
  intros Hb k Hk. destruct (try k) eqn:E; [|done].
  destruct (backtrack_complete try min n k Hk) as [x Hx]; [by rewrite E|].
  congruence.
Qed.

Lemma run_length_take {A} (p : A → bool) (l : list A) k :
  (k ≤ run_length p l)%nat → Forall (λ x, p x = true) (take k l) ∧ (k ≤ length l)%nat.
Proof.
  revert k. induction l as [|x l IH]; intros k; simpl.
  - intros Hk. assert (k = 0)%nat as -> by lia. split; [constructor|lia].
  - destruct (p x) eqn:Hx.
    + destruct k as [|k]; simpl; [intros _; split; [constructor|lia]|].
      intros Hk. destruct (IH k) as [? ?]; [lia|]. split; [by constructor|lia].
    + intros Hk. assert (k = 0)%nat as -> by lia. split; [constructor|lia].
Qed.

Lemma run_length_app {A} (p : A → bool) (w l : list A) :
  Forall (λ x, p x = true) w → (length w ≤ run_length p (w ++ l))%nat.
Proof.
  induction 1 as [|x w Hx _ IH]; simpl; [lia|]. rewrite Hx. lia.
Qed.

Lemma match_here_sound r s n g :
  match_here r s = Some (n, g) →
  (n ≤ length s)%nat ∧ matches r (take n s) g.
Proof.
  revert s n g. induction r as [|a r IH]; intros s n g; simpl.
  - intros [= <- <-]. split; [lia|]. rewrite take_0. constructor.
  - destruct a as [c|c|k min|k min].
    + destruct s as [|ch s]; [done|].
      destruct (Z.eqb_spec ch c) as [->|]; [|done].
      destruct (match_here r s) as [[n' g']|] eqn:E; [|done].
      intros [= <- <-]. destruct (IH _ _ _ E). simpl. split; [lia|by constructor].
    + destruct s as [|ch s]; [done|].
      destruct (ieq c ch) eqn:Hc; [|done].
      destruct (match_here r s) as [[n' g']|] eqn:E; [|done].
      intros [= <- <-]. destruct (IH _ _ _ E). simpl. split; [lia|by constructor].
    + intros Hb. apply backtrack_sound in Hb as (j & Hj & Hb).
      destruct (match_here r (drop j s)) as [[n' g']|] eqn:E; [|done].
      injection Hb as <- <-. destruct (IH _ _ _ E) as [Hn Hm].
      destruct (run_length_take (in_cls k) s j) as [Hw Hjs]; [lia|].
      rewrite length_drop in Hn. split; [lia|].
      rewrite <- take_take_drop.
      constructor; [done|rewrite length_take; lia|done].
    + intros Hb. apply backtrack_sound in Hb as (j & Hj & Hb).
      destruct (match_here r (drop j s)) as [[n' g']|] eqn:E; [|done].
      injection Hb as <- <-. destruct (IH _ _ _ E) as [Hn Hm].
      destruct (run_length_take (in_cls k) s j) as [Hw Hjs]; [lia|].
      rewrite length_drop in Hn. split; [lia|].
      rewrite <- take_take_drop.
      econstructor; [done|rewrite length_take; lia|done].
Qed.

Lemma match_here_complete r m g rest :
  matches r m g → is_Some (match_here r (m ++ rest)).
Proof.
  induction 1 as [|c r s g _ IH|c ch r s g Hc _ IH|k min r w s g Hw Hmin _ IH
                 |k min r w s g Hw Hmin _ IH]; simpl.
  - done.
  - rewrite Z.eqb_refl. destruct IH as [[n' g'] ->]. done.
  - rewrite Hc. destruct IH as [[n' g'] ->]. done.
  - apply (backtrack_complete _ min _ (length w)).
    + split; [done|]. rewrite <- (assoc_L (++)). by apply run_length_app.
    + rewrite <- (assoc_L (++)), drop_app_length.
      destruct IH as [[n' g'] ->]. done.
  - apply (backtrack_complete _ min _ (length w)).
    + split; [done|]. rewrite <- (assoc_L (++)). by apply run_length_app.
    + rewrite <- (assoc_L (++)), drop_app_length.
      destruct IH as [[n' g'] ->]. done.
Qed.

Lemma split_at {A} (l : list A) i n :
  l = take i l ++ take n (drop i l) ++ drop (i + n) l.
Proof.
  rewrite <- (take_drop i l) at 1. f_equal.
  rewrite <- (take_drop n (drop i l)) at 1. f_equal.
  by rewrite drop_drop.
Qed.

(** What [search_from] finds is a match, and no match starts before it. *)
Lemma search_from_Some r s i m :
  search_from r s = Some (i, m) →
  (i + length (whole m) ≤ length s)%nat ∧
  whole m = take (length (whole m)) (drop i s) ∧
  matches r (whole m) (group1 m) ∧
  ∀ j, (j < i)%nat → match_here r (drop j s) = None.
Proof.
  revert i m. induction s as [|ch s IH]; intros i m; simpl.
  - destruct (match_here r []) as [[n g]|] eqn:E; [|done].
    intros [= <- <-]. apply match_here_sound in E as [Hn Hm]. simpl in *.
    assert (n = 0)%nat as -> by lia. simpl. split_and!; [lia|done|done|lia].
  - destruct (match_here r (ch :: s)) as [[n g]|] eqn:E.
    + intros [= <- <-]. apply match_here_sound in E as [Hn Hm]. simpl in *.
      rewrite length_take. rewrite Nat.min_l by done.
      split_and!; [lia|done|done|lia].
    + destruct (search_from r s) as [[i' m']|] eqn:E'; [|done].
      intros [= <- <-]. destruct (IH _ _ eq_refl) as (Hlen & Hw & Hm & Hno).
      split_and!; [simpl; lia|done|done|].
      intros [|j] Hj; [done|]. simpl. apply Hno. lia.
Qed.

Lemma search_from_None r s :
  search_from r s = None → ∀ j, match_here r (drop j s) = None.
Proof.
  induction s as [|ch s IH]; simpl.
  - destruct (match_here r []) as [[n g]|] eqn:E; [done|].
    intros _ j. by rewrite drop_nil.
  - destruct (match_here r (ch :: s)) as [[n g]|] eqn:E; [done|].
    destruct (search_from r s) as [[i' m']|] eqn:E'; [done|].
    intros _ [|j]; [done|]. simpl. by apply IH.
Qed.

Lemma occurs_match_here r s g :
  occurs r s g → ∃ j, is_Some (match_here r (drop j s)).
Proof.
  intros (pre & m & post & -> & Hm). exists (length pre).
  rewrite drop_app_length. by eapply match_here_complete.
Qed.

(** [re.search] finds a match exactly when the pattern occurs. *)
Lemma search_None r s : search r s = None ↔ ∀ g, ¬ occurs r s g.
Proof.
  unfold search. split.
  - intros Hs g Hocc. apply occurs_match_here in Hocc as [j [x Hx]].
    destruct (search_from r s) as [[i m]|] eqn:E; [done|].
    by rewrite (search_from_None _ _ E j) in Hx.
  - intros Hno. destruct (search_from r s) as [[i m]|] eqn:E; [|done].
    apply search_from_Some in E as (Hlen & Hw & Hm & _).
    destruct (Hno (group1 m)). exists (take i s), (whole m), (drop (i + length (whole m)) s).
    split; [|done]. rewrite Hw at 1. apply split_at.
Qed.


Lemma search_leftmost r s mt :
  search r s = Some mt → leftmost_match r s (whole mt) (group1 mt).
Proof.
  unfold search. destruct (search_from r s) as [[i m']|] eqn:E; [|done].
  intros [= <-]. apply search_from_Some in E as (Hlen & Hw & Hm & Hno).
  exists (take i s), (drop (i + length (whole m')) s).
  split_and!; [rewrite Hw at 1; apply split_at|done|].
  intros pre' u' post' g' Hs Hu'.
  rewrite length_take. apply Nat.min_le_iff. left.
  destruct (Nat.le_gt_cases i (length pre')) as [|Hlt]; [done|].
  specialize (Hno _ Hlt). rewrite Hs, drop_app_length in Hno.
  destruct (match_here_complete _ _ _ post' Hu') as [x Hx]. congruence.
Qed.

Lemma run_length_stop {A} (p : A → bool) (l : list A) c :
  head (drop (run_length p l) l) = Some c → p c = false.
Proof.
  induction l as [|x l IH]; simpl; [done|].
  destruct (p x) eqn:Hx; [done|]. simpl. by intros [= <-].
Qed.

Lemma backtrack_always {R} (f : nat → R) min n :
  backtrack (λ j, Some (f j)) min n = if (n <? min)%nat then None else Some (f n).
Proof. destruct n; simpl; by destruct (_ <? _)%nat. Qed.

(** A pattern that ends with a repetition leaves none of the characters
    of its class behind the match. *)
Lemma match_here_greedy r k min s n g :
  last r = Some (Many k min) ∨ last r = Some (Group k min) →
  match_here r s = Some (n, g) →
  ∀ c, head (drop n s) = Some c → in_cls k c = false.
Proof.
  revert s n g. induction r as [|a r IH]; intros s n g Hlast; [by destruct Hlast|].
  destruct r as [|b r].
  - assert (n = run_length (in_cls k) s → 
            ∀ c, head (drop n s) = Some c → in_cls k c = false) as Hend.
    { intros -> c. apply run_length_stop. }
    intros Hm. apply Hend. clear Hend.
    destruct Hlast as [[= ->]|[= ->]]; cbn in Hm.
    + rewrite (backtrack_always (λ j, ((j + 0)%nat, None))) in Hm.
      destruct (_ <? _)%nat; [done|]. injection Hm as <- _. lia.
    + rewrite (backtrack_always (λ j, ((j + 0)%nat, Some (take j s)))) in Hm.
      destruct (_ <? _)%nat; [done|]. injection Hm as <- _. lia.
  - assert (Hlast' : last (b :: r) = Some (Many k min) ∨
                     last (b :: r) = Some (Group k min)) by done.
    specialize (IH).
    remember (b :: r) as r' eqn:Hr'. clear Hlast Hr'.
    destruct a as [c0|c0|k0 min0|k0 min0]; cbn [match_here].
    + destruct s as [|ch s]; [done|]. destruct (ch =? c0); [|done].
      destruct (match_here r' s) as [[n' g']|] eqn:E; [|done].
      cbn. intros [= <- <-]. simpl. by eapply IH.
    + destruct s as [|ch s]; [done|]. destruct (ieq c0 ch); [|done].
      destruct (match_here r' s) as [[n' g']|] eqn:E; [|done].
      cbn. intros [= <- <-]. simpl. by eapply IH.
    + intros Hm. destruct (backtrack_sound _ _ _ _ Hm) as (j & Hj & Hx).
      destruct (match_here r' (drop j s)) as [[m g']|] eqn:E; [|done].
      cbn in Hx. injection Hx as <- <-. intros c.
      rewrite <- drop_drop. by eapply IH.
    + intros Hm. destruct (backtrack_sound _ _ _ _ Hm) as (j & Hj & Hx).
      destruct (match_here r' (drop j s)) as [[m g']|] eqn:E; [|done].
      cbn in Hx. injection Hx as <- _. intros c.
      rewrite <- drop_drop. by eapply IH.
Qed.
Lemma search_from_here r s i m :
  search_from r s = Some (i, m) →
  ∃ n, match_here r (drop i s) = Some (n, group1 m) ∧
       whole m = take n (drop i s) ∧ (n ≤ length (drop i s))%nat.
Proof.
  revert i m. induction s as [|ch s IH]; intros i m; simpl.
  - destruct (match_here r []) as [[n g]|] eqn:E; [|done].
    intros [= <- <-]. exists n. simpl. split_and!; [done..|].
    by apply match_here_sound in E as [? _].
  - destruct (match_here r (ch :: s)) as [[n g]|] eqn:E.
    + intros [= <- <-]. exists n. simpl. split_and!; [done..|].
      by apply match_here_sound in E as [? _].
    + destruct (search_from r s) as [[i' m']|] eqn:E'; [|done].
      intros [= <- <-]. simpl. by apply IH.
Qed.

(** What [re.search] returns for a pattern that ends with a
    repetition. *)
Lemma search_first_greedy r k min s mt :
  last r = Some (Many k min) ∨ last r = Some (Group k min) →
  search r s = Some mt → first_greedy_match r k s (whole mt) (group1 mt).
Proof.
  intros Hlast Hs.
  destruct (search_leftmost _ _ _ Hs) as (pre0 & post0 & _ & Hm & _).
  unfold search in Hs. destruct (search_from r s) as [[i m']|] eqn:E; [|done].
  injection Hs as <-.
  destruct (search_from_Some _ _ _ _ E) as (_ & _ & _ & Hno).
  destruct (search_from_here _ _ _ _ E) as (n & Hn & Hw & Hle).
  exists (take i s), (drop (i + n) s). split_and!; [| done | |].
  - rewrite Hw. apply split_at.
  - intros pre' u' post' g' Hs Hu'.
    rewrite length_take. apply Nat.min_le_iff. left.
    destruct (Nat.le_gt_cases i (length pre')) as [|Hlt]; [done|].
    specialize (Hno _ Hlt). rewrite Hs, drop_app_length in Hno.
    destruct (match_here_complete _ _ _ post' Hu') as [x Hx]. congruence.
  - intros c. rewrite <- drop_drop. by eapply match_here_greedy.
Qed.

Lemma findall_head r s : head (findall r s) = whole <$> search r s.
Proof.
  unfold findall, search. simpl.
  by destruct (search_from r s) as [[i m]|].
Qed.
End re_facts.

(** ** The manifest URL *)

Section extractor_facts.
Import py re extractor.
Context `{!Unicode}.

Lemma startswith_spec s p : startswith s p = true ↔ ∃ post, s = p ++ post.
Proof.
  revert s. induction p as [|a p IH]; intros s; simpl.
  - split; [intros _; by exists s|done].
  - destruct s as [|b s]; [split; [done|by intros [? ?]]|].
    rewrite andb_true_iff, IH, Z.eqb_eq. split.
    + intros [-> [post ->]]. by exists post.
    + intros [post [= -> ->]]. split; [done|by exists post].
Qed.

(** [sub in s] holds exactly when [sub] is a piece of [s]. *)
Lemma contains_spec s sub :
  contains s sub = true ↔ ∃ pre post, s = pre ++ sub ++ post.
Proof.
  induction s as [|c s IH]; simpl.
  - rewrite orb_false_r, startswith_spec. split.
    + intros [post ->]. by exists [], post.
    + intros (pre & post & Heq). destruct pre; [by exists post|done].
  - rewrite orb_true_iff, startswith_spec, IH. split.
    + intros [[post ->]|(pre & post & ->)]; [by exists [], post|by exists (c :: pre), post].
    + intros ([|c' pre] & post & Heq); simpl in *.
      * left. by exists post.
      * injection Heq as -> ->. right. by exists pre, post.
Qed.

Lemma first_in_text_nil : first_in_text [] = None.
Proof. reflexivity. Qed.

Lemma first_in_text_findall text :
  match findall m3u8_pattern text with
  | u :: _ => Some u
  | [] => None
  end = first_in_text text.
Proof.
  unfold first_in_text. rewrite <- findall_head.
  by destruct (findall m3u8_pattern text).
Qed.

Lemma scan_scripts_spec scripts :
  scan_scripts scripts = first_in_scripts scripts.
Proof.
  unfold first_in_scripts. induction scripts as [|script scripts IH]; [done|].
  cbn [scan_scripts omap list_omap].
  destruct (string_ script) as [[|c s]|]; cbn [mbind option_bind].
  - by rewrite first_in_text_nil.
  - rewrite <- first_in_text_findall.
    by destruct (findall m3u8_pattern (c :: s)).
  - done.
Qed.

Lemma matches_chars x r m g :
  matches (chars x ++ r) m g → ∃ m', m = lit x ++ m' ∧ matches r m' g.
Proof.
  unfold chars. revert m. induction (lit x) as [|c s IH]; intros m Hm; simpl in *.
  - by exists m.
  - inversion Hm as [|c' r' s' g' Hm'| | |]; subst.
    destruct (IH _ Hm') as (m' & -> & Hm'').
    by exists m'.
Qed.

Lemma matches_Many_inv k min r m g :
  matches (Many k min :: r) m g →
  ∃ w s, m = w ++ s ∧ Forall (λ c, in_cls k c = true) w ∧
         (min ≤ length w)%nat ∧ matches r s g.
Proof. inversion 1; subst. by eexists _, _. Qed.

Lemma m3u8_pattern_last : last m3u8_pattern = Some (Many UrlChar 1).
Proof. reflexivity. Qed.

(** A match of the manifest pattern holds no double quote and no white
    space. *)
Lemma matches_m3u8_chars u g :
  matches m3u8_pattern u g → Forall (λ c, in_cls UrlChar c = true) u.
Proof.
  unfold m3u8_pattern. intros Hm.
  apply matches_chars in Hm as (m1 & -> & Hm).
  apply (matches_Many_inv UrlChar 1) in Hm as (w1 & s1 & -> & Hw1 & _ & Hm).
  apply matches_chars in Hm as (m2 & -> & Hm).
  apply (matches_Many_inv UrlChar 1) in Hm as (w2 & s2 & -> & Hw2 & _ & Hm).
  inversion Hm; subst.
  repeat apply Forall_app_2; try done; by repeat constructor.
Qed.

Lemma greedy_prefix_unique {A} (P : A → bool) (u u' post post' : list A) :
  Forall (λ c, P c = true) u → Forall (λ c, P c = true) u' →
  (∀ c, head post = Some c → P c = false) →
  (∀ c, head post' = Some c → P c = false) →
  u ++ post = u' ++ post' → u = u'.
Proof.
  intros Hu. revert u'. induction Hu as [|c u Hc _ IH]; intros u' Hu' Hp Hp' Heq.
  - destruct Hu' as [|c' u' Hc' _]; [done|]. simpl in Heq. subst post.
    specialize (Hp c' eq_refl). congruence.
  - destruct Hu' as [|c' u' Hc' Hu']; simpl in Heq.
    + subst post'. specialize (Hp' c eq_refl). congruence.
    + injection Heq as -> Heq. f_equal. by apply IH.
Qed.

(** The scan of a text returns one URL at most. *)
Lemma first_greedy_match_m3u8_unique text u u' g g' :
  first_greedy_match m3u8_pattern UrlChar text u g →
  first_greedy_match m3u8_pattern UrlChar text u' g' →
  u = u'.
Proof.
  intros (pre & post & Ht & Hm & Hleft & Hend)
         (pre' & post' & Ht' & Hm' & Hleft' & Hend').
  assert (Hlen : length pre = length pre').
  { apply Nat.le_antisymm; [by eapply Hleft|by eapply Hleft']. }
  rewrite Ht in Ht'. apply app_inj_1 in Ht' as [_ Heq]; [|done].
  eapply (greedy_prefix_unique (in_cls UrlChar)); [..|exact Heq];
    [by eapply matches_m3u8_chars..|done|done].
Qed.

(** What the scan of a text returns. *)
Lemma first_in_text_spec text url :
  first_in_text text = Some url ↔
  ∃ g, first_greedy_match m3u8_pattern UrlChar text url g.
Proof.
  unfold first_in_text. split.
  - destruct (search m3u8_pattern text) as [mt|] eqn:Hs; [|done].
    intros [= <-]. exists (group1 mt).
    apply (search_first_greedy _ _ 1); [left; apply m3u8_pattern_last|done].
  - intros [g Hg].
    destruct (search m3u8_pattern text) as [mt|] eqn:Hs.
    + simpl. f_equal.
      eapply first_greedy_match_m3u8_unique; [|exact Hg].
      apply (search_first_greedy _ _ 1); [left; apply m3u8_pattern_last|done].
    + destruct Hg as (pre & post & Ht & Hm & _).
      destruct (proj1 (search_None _ _) Hs g). by exists pre, url, post.
Qed.

Lemma first_in_text_None text :
  first_in_text text = None ↔ ∀ g, ¬ occurs m3u8_pattern text g.
Proof.
  unfold first_in_text. rewrite <- search_None.
  by destruct (search m3u8_pattern text).
Qed.

(** The scan of the script blocks returns what it finds in the first
    block that holds a URL. *)
Lemma first_in_scripts_first before script after text url :
  (∀ s t, s ∈ before → string_ s = Some t → first_in_text t = None) →
  string_ script = Some text → first_in_text text = Some url →
  first_in_scripts (before ++ script :: after) = Some url.
Proof.
  intros Hbefore Hs Hf. unfold first_in_scripts.
  induction before as [|s before IH]; cbn [app omap list_omap].
  - by rewrite Hs; cbn [mbind option_bind]; rewrite Hf.
  - destruct (string_ s) as [t|] eqn:Ht; cbn [mbind option_bind].
    + rewrite (Hbefore s t); [|by left|done].
      apply IH. intros s' t' Hin. apply Hbefore. by right.
    + apply IH. intros s' t' Hin. apply Hbefore. by right.
Qed.

Lemma first_in_scripts_None scripts :
  first_in_scripts scripts = None ↔
  ∀ s t, s ∈ scripts → string_ s = Some t → first_in_text t = None.
Proof.
  unfold first_in_scripts. induction scripts as [|s scripts IH];
    cbn [omap list_omap].
  - split; [|done]. intros _ s t Hin. by apply elem_of_nil in Hin.
  - destruct (string_ s) as [t|] eqn:Ht; cbn [mbind option_bind].
    + destruct (first_in_text t) as [u|] eqn:Hu.
      * split; [done|]. intros Hall. by rewrite (Hall s t) in Hu; [|left|].
      * rewrite IH. split.
        -- intros Hall s' t' [->|Hin]%elem_of_cons Hs'; [congruence|by eapply Hall].
        -- intros Hall s' t' Hin. apply Hall. by right.
    + rewrite IH. split.
      * intros Hall s' t' [->|Hin]%elem_of_cons Hs'; [congruence|by eapply Hall].
      * intros Hall s' t' Hin. apply Hall. by right.
Qed.

(** C7.  A manifest URL in the metadata wins over every URL in the text
    and in the scripts; the result is that of the first strategy, in the
    order metadata, text, scripts, that finds something.  A scan finds
    something exactly when the pattern occurs in the text, and what it
    finds is the first match: no match starts before it, and it runs on
    to the next double quote or white space.  Without a URL in the
    metadata, the result is the first match in the text of the page when
    the pattern occurs there, and else the first match in the first
    script block in which the pattern occurs; nothing is returned
    exactly when no strategy finds anything. *)
Theorem manifest_precedence soup html_content :
  (∀ og_url url,
     find_meta soup (lit "og:url") = Some og_url →
     tag_get og_url (lit "content") = Some url →
     contains url (lit "hls.m3u8") = true →
     contains url (lit "viewerToken=") = true →
     _extract_m3u8_url soup html_content = Some url) ∧
  _extract_m3u8_url soup html_content =
    match metadata_url soup with
    | Some url => Some url
    | None =>
      match first_in_text html_content with
      | Some url => Some url
      | None => first_in_scripts (find_all_script soup)
      end
    end ∧
  (∀ text url, first_in_text text = Some url →
     ∃ g, leftmost_match m3u8_pattern text url g) ∧
  (∀ text, first_in_text text = None ↔ ∀ g, ¬ occurs m3u8_pattern text g) ∧
  (∀ text url, first_in_text text = Some url ↔
     ∃ g, first_greedy_match m3u8_pattern UrlChar text url g) ∧
  (metadata_url soup = None →
   ∀ url g, first_greedy_match m3u8_pattern UrlChar html_content url g →
     _extract_m3u8_url soup html_content = Some url) ∧
  (metadata_url soup = None →
   (∀ g, ¬ occurs m3u8_pattern html_content g) →
   ∀ before script after text url g,
     find_all_script soup = before ++ script :: after →
     (∀ s t g', s ∈ before → string_ s = Some t →
        ¬ occurs m3u8_pattern t g') →
     string_ script = Some text →
     first_greedy_match m3u8_pattern UrlChar text url g →
     _extract_m3u8_url soup html_content = Some url) ∧
  (_extract_m3u8_url soup html_content = None ↔
   metadata_url soup = None ∧
   (∀ g, ¬ occurs m3u8_pattern html_content g) ∧
   ∀ s t g, s ∈ find_all_script soup → string_ s = Some t →
            ¬ occurs m3u8_pattern t g).
Proof.
  assert (Heq : _extract_m3u8_url soup html_content =
    match metadata_url soup with
    | Some url => Some url
    | None =>
      match first_in_text html_content with
      | Some url => Some url
      | None => first_in_scripts (find_all_script soup)
      end
    end).
  { unfold _extract_m3u8_url, metadata_url.
    rewrite <- scan_scripts_spec, <- first_in_text_findall.
    destruct (find_meta soup (lit "og:url")) as [og_url|]; simpl.
    - destruct (tag_get og_url (lit "content")) as [[|c u]|]; simpl.
      + by destruct (findall m3u8_pattern html_content).
      + destruct (_ && _); [done|].
        by destruct (findall m3u8_pattern html_content).
      + by destruct (findall m3u8_pattern html_content).
    - by destruct (findall m3u8_pattern html_content). }
  split_and!.
  - intros og_url url Hog Hurl H1 H2. rewrite Heq. unfold metadata_url.
    rewrite Hog. simpl. rewrite Hurl. simpl. by rewrite H1, H2.
  - done.
  - unfold first_in_text. intros text url Hs.
    destruct (search m3u8_pattern text) as [mt|] eqn:E; [|done].
    injection Hs as <-. exists (group1 mt). by apply search_leftmost.
  - apply first_in_text_None.
  - apply first_in_text_spec.
  - intros Hmeta url g Hg. rewrite Heq, Hmeta.
    by rewrite (proj2 (first_in_text_spec _ _) (ex_intro _ g Hg)).
  - intros Hmeta Hno before script after text url g Hscripts Hbefore Hs Hg.
    rewrite Heq, Hmeta, (proj2 (first_in_text_None _) Hno), Hscripts.
    apply (first_in_scripts_first _ _ _ text); [|done|].
    + intros s t Hin Ht. apply first_in_text_None. intros g'. by eapply Hbefore.
    + apply first_in_text_spec. by exists g.
  - rewrite Heq. split.
    + destruct (metadata_url soup); [done|].
      destruct (first_in_text html_content) eqn:Hf; [done|]. intros Hsc.
      split_and!; [done|by apply first_in_text_None|].
      intros s t g Hin Ht.
      by apply first_in_text_None, (proj1 (first_in_scripts_None _) Hsc s).
    + intros (-> & Hno & Hsc). rewrite (proj2 (first_in_text_None _) Hno).
      apply first_in_scripts_None. intros s t Hin Ht.
      apply first_in_text_None. intros g. by eapply Hsc.
Qed.
End extractor_facts.


(** ** Integers in text *)

Section int_facts.
Import py.
Context `{!Unicode}.

Lemma ascii_digit_range c d : ascii_digit c = Some d → 48 ≤ c ≤ 57 ∧ d = c - 48.
Proof.
  unfold ascii_digit.
  destruct (Z.leb_spec 48 c), (Z.leb_spec c 57); simpl; intros [= <-]; lia.
Qed.

Lemma to_ascii_digit c d :
  decimal c = Some d → ∃ c', to_ascii c = Some c' ∧ ascii_digit c' = Some d.
Proof.
  intros Hdec. unfold to_ascii. rewrite Hdec.
  revert Hdec. unfold decimal, isspace.
  destruct (Z.ltb_spec c 128) as [Hc|Hc].
  - intros Hd. pose proof (ascii_digit_range _ _ Hd) as [Hr _].
    destruct (Z.ltb_spec c 127); [|lia]. by exists c.
  - intros Hd. destruct (Z.ltb_spec c 127); [lia|].
    destruct (uni_isspace c) eqn:Hsp.
    { apply uni_space_no_digit in Hsp. congruence. }
    simpl. exists (48 + d). split; [done|].
    pose proof (uni_decimal_range _ _ Hd). unfold ascii_digit.
    destruct (Z.leb_spec 48 (48 + d)), (Z.leb_spec (48 + d) 57); simpl;
      [f_equal|..]; lia.
Qed.

Lemma mapM_to_ascii_digits w :
  Forall (λ c, isdigit c = true) w →
  ∃ w', mapM to_ascii w = Some w' ∧
        Forall2 (λ c c', ascii_digit c' = decimal c ∧ is_Some (decimal c)) w w'.
Proof.
  induction 1 as [|c w Hc _ (w' & Hw' & IH)]; [by exists []|].
  unfold isdigit in Hc. destruct (decimal c) as [d|] eqn:Hd; [|done].
  destruct (to_ascii_digit _ _ Hd) as (c' & Hc' & Hd').
  exists (c' :: w'). cbn. rewrite Hc'. cbn. rewrite Hw'. cbn.
  split; [done|]. constructor; [|done]. rewrite Hd. split; [done|by eexists].
Qed.

Lemma scan_digits_all acc w w' :
  Forall2 (λ c c', ascii_digit c' = decimal c ∧ is_Some (decimal c)) w w' →
  scan_digits acc w' = Some (digits_from acc w, []).
Proof.
  intros Hw. revert acc. induction Hw as [|c c' w w' [Hc [d Hd]] _ IH]; intros acc; [done|].
  rewrite Hd in Hc. cbn [scan_digits]. rewrite Hc.
  unfold digits_from. cbn [foldl]. rewrite Hd. cbn [default]. apply IH.
Qed.

Lemma count_digits_all w w' :
  Forall2 (λ c c', ascii_digit c' = decimal c ∧ is_Some (decimal c)) w w' →
  count_digits w' = length w.
Proof.
  induction 1 as [|c c' w w' [Hc [d Hd]] _ IH]; [done|].
  rewrite Hd in Hc. cbn [count_digits length]. by rewrite Hc, IH.
Qed.

(** [int] of a string of decimal digits is its value, when the digits
    are not too many. *)
Lemma int_digits w :
  w ≠ [] → Forall (λ c, isdigit c = true) w →
  int w = if int_max_str_digits <? Z.of_nat (length w) then Raise ValueError
          else Return (decimal_value w).
Proof.
  intros Hne Hw. destruct (mapM_to_ascii_digits w Hw) as (w' & Hw' & H2).
  unfold int. rewrite Hw'.
  destruct H2 as [|c c' w0 w0' [Hc [d Hd]] H2]; [done|].
  rewrite Hd in Hc. pose proof (ascii_digit_range _ _ Hc) as [Hr ->].
  assert (Hsp : c_isspace c' = false).
  { unfold c_isspace.
    destruct (Z.leb_spec 9 c'), (Z.leb_spec c' 13), (Z.eqb_spec c' 32); simpl; lia. }
  cbn [drop_while]. rewrite Hsp.
  destruct (Z.eqb_spec c' 43); [lia|]. destruct (Z.eqb_spec c' 45); [lia|].
  rewrite Hc. rewrite (scan_digits_all _ _ _ H2). cbn [drop_while].
  assert (count_digits (c' :: w0') = length (c :: w0)) as ->.
  { apply count_digits_all. constructor; [|done]. rewrite Hc, Hd. by eauto. }
  destruct (_ <? _); [done|].
  unfold decimal_value. cbn [foldl]. rewrite Hd. cbn [default].
  f_equal. unfold digits_from. rewrite Z.mul_1_l. f_equal; unfold id; lia.
Qed.
End int_facts.

Section extractor_number.
Import py re extractor.
Context `{!Unicode}.

(** The text of group 1 is the text its class repetition matched. *)
Lemma matches_group pre k min post m g :
  Forall no_group pre → matches (pre ++ Group k min :: post) m g →
  ∃ w, g = Some w ∧ Forall (λ c, in_cls k c = true) w ∧ (min ≤ length w)%nat.
Proof.
  intros Hpre. revert m g. induction Hpre as [|a pre Ha _ IH]; intros m g Hm; simpl in *.
  - inversion Hm; subst. by eexists.
  - inversion Hm; subst; simpl in *; try done; by eapply IH.
Qed.

Lemma patterns_digit_group : Forall digit_group patterns.
Proof.
  unfold patterns. repeat apply Forall_cons_2; [| | | |constructor].
  - exists (letters "Episode" ++ [Many Space 1]), [].
    split; [repeat constructor|reflexivity].
  - exists (letters "Ep" ++ [Many Space 1]), [].
    split; [repeat constructor|reflexivity].
  - exists (letters "E"), []. split; [repeat constructor|reflexivity].
  - exists [Chr 31532; Many Space 0], [Many Space 0; Chr 38598].
    split; [repeat constructor|reflexivity].
Qed.

Lemma int_group1_digit_group p title mt :
  digit_group p → search p title = Some mt →
  ∃ w, group1 mt = Some w ∧ w ≠ [] ∧
       Forall (λ c, isdigit c = true) w ∧
       int_group1 mt =
         if int_max_str_digits <? Z.of_nat (length w) then Raise ValueError
         else Return (decimal_value w).
Proof.
  intros (pre & post & Hpre & ->) Hs.
  destruct (search_leftmost _ _ _ Hs) as (_ & _ & _ & Hm & _).
  destruct (matches_group _ _ _ _ _ _ Hpre Hm) as (w & Hg & Hw & Hlen).
  assert (Hne : w ≠ []) by (destruct w; simpl in *; [lia|done]).
  exists w. split_and!; [done..|]. unfold int_group1. rewrite Hg.
  by apply int_digits.
Qed.

(** The loop of [extract_episode_number]: nothing when no pattern is
    found; otherwise the first pattern that is found decides, by the
    digits it captured. *)
Lemma first_match_spec ps title :
  Forall digit_group ps →
  (first_match ps title = Return None ∧
   ∀ p, p ∈ ps → search p title = None) ∨
  ∃ k p mt w,
    ps !! k = Some p ∧
    (∀ j q, (j < k)%nat → ps !! j = Some q → search q title = None) ∧
    search p title = Some mt ∧ group1 mt = Some w ∧
    first_match ps title =
      if int_max_str_digits <? Z.of_nat (length w) then Raise ValueError
      else Return (Some (decimal_value w)).
Proof.
  induction 1 as [|p ps Hp _ IH]; simpl.
  - left. split; [done|]. intros p Hp. by apply elem_of_nil in Hp.
  - destruct (search p title) as [mt|] eqn:Hs.
    + right. destruct (int_group1_digit_group _ _ _ Hp Hs) as (w & Hg & _ & _ & ->).
      exists 0%nat, p, mt, w. split_and!; try done; [lia|].
      by destruct (_ <? _).
    + destruct IH as [[-> Hnone]|(k & q & mt & w & Hk & Hbefore & Hq & Hg & ->)].
      * left. split; [done|]. intros q Hq.
        apply elem_of_cons in Hq as [->|Hq]; [done|by apply Hnone].
      * right. exists (S k), q, mt, w. split_and!; try done.
        intros [|j] q' Hj Hq'; simpl in *; [by simplify_eq|].
        eapply Hbefore; [|done]. lia.
Qed.
End extractor_number.

(** ** The episode number of a title *)

Section number_examples.
Import py re extractor.





End number_examples.

Section number_claim.
Import py re extractor.
Context `{!Unicode}.



End number_claim.

(** ** The episode selector *)

Section selector_facts.
Import py cache cli.
Context `{!Unicode}.

Lemma int_raises s e : int s = Raise e → e = ValueError.
Proof. unfold int. repeat case_match; intros; simplify_eq; done. Qed.

Lemma select_part_spec c part :
  select_part c part = Return (term_episodes c part, term_warnings c part).
Proof.
  unfold select_part, term_episodes, term_warnings, classify.
  destruct (contains (strip part) (lit "-")).
  - unfold unpack2_int.
    destruct (split 45 (strip part)) as [|a [|b [|? ?]]]; try done.
    destruct (int a) as [x|e] eqn:Ha; cbn.
    + destruct (int b) as [y|e] eqn:Hb; cbn; [done|].
      by rewrite (int_raises _ _ Hb).
    + by rewrite (int_raises _ _ Ha).
  - destruct (int (strip part)) as [n|e] eqn:Hn; cbn.
    + by destruct (get_episode c n).
    + by rewrite (int_raises _ _ Hn).
Qed.

Lemma select_parts_spec c parts episodes out :
  select_parts c parts episodes out =
  Return (episodes ++ concat (term_episodes c <$> parts),
          out ++ concat (term_warnings c <$> parts)).
Proof.
  revert episodes out. induction parts as [|part parts IH]; intros episodes out.
  - simpl. by rewrite !app_nil_r.
  - cbn [select_parts]. rewrite select_part_spec. cbn.
    rewrite IH. by rewrite <- !(assoc_L (++)).
Qed.
End selector_facts.

Section selector_claim.
Import py cache cli.
Context `{!Unicode}.

End selector_claim.

(** ** The batch preprocessor *)

Section preprocessor_facts.
Import py fs cache extractor preprocessor.
Context `{!Unicode, !Platform}.

Lemma extract_from_file_unpack env files file_path :
  unpack2 (extract_from_file env files file_path) = Raise ValueError.
Proof.
  unfold extract_from_file, extract_from_html.
  destruct (Path_exists _ _ _) as [[|]|e]; [|done|done].
  destruct (read_text _ _ _ _) as [[html|e] ?]; [|done].
  by destruct (_extract_m3u8_url _ _) as [[|? ?]|].
Qed.

Lemma extract_from_url_unpack url :
  unpack2 (extract_from_url url) = Raise ValueError.
Proof. unfold extract_from_url. by destruct (browse url) as [[? ?] ?]. Qed.

(** No turn of the loop ends well: the existence check raises, or the
    unpacking does. *)
Lemma process_item_raises verbose env files now i n item c :
  process_item verbose env files now i n item c =
    (Raise (if unexaminable env (Path item) then OSError else ValueError),
     if verbose then [Processing i n item] else []).
Proof.
  unfold process_item, Path_exists.
  destruct (unexaminable env (Path item)); [done|]. cbn [mbind result_bind].
  destruct (exists_ files (Path item)).
  - by rewrite extract_from_file_unpack.
  - by rewrite extract_from_url_unpack.
Qed.

(** Whatever the sources are, [process_url_list] ends at the first one:
    it returns [False], saves nothing and prints the error. *)
Lemma process_url_list_aborts verbose env now url_list_file cache_file
    season files item rest out :
  _read_url_list env files url_list_file = (item :: rest, out) →
  process_url_list verbose env now url_list_file cache_file season files =
    (false, files,
     out ++
     (if verbose then [Found_URLs_to_process (S (length rest))] else []) ++
     (if verbose then [Processing 1 (S (length rest)) item] else []) ++
     [Error_processing_URLs
        (if unexaminable env (Path item) then OSError else ValueError)]).
Proof.
  intros Hr. unfold process_url_list. rewrite Hr.
  cbn [process_items]. rewrite process_item_raises.
  by rewrite <- !(assoc_L (++)).
Qed.

(** C3 (the code at a failing input).  On a list of two sources that
    are not local files, whatever the pages hold, [process_url_list]
    returns [False] after the first source: the result of the extractor
    has three components and is unpacked into two names.  Nothing is
    saved, no source is reported as skipped, and the second source is
    never processed. *)
Theorem process_url_list_stops_at_first_source verbose now :
  process_url_list verbose sample.no_faults now
      (lit "urls.txt") (lit "d/s1.json") 1 sample.url_list =
    (false, sample.url_list,
     (if verbose then
        [Found_URLs_to_process 2;
         Processing 1 2 (lit "https://watch.thechosen.tv/video/1")]
      else []) ++
     [Error_processing_URLs ValueError]).
Proof.
  rewrite (process_url_list_aborts _ _ _ _ _ _ _
             (lit "https://watch.thechosen.tv/video/1")
             [lit "https://watch.thechosen.tv/video/2"] []).
  - by destruct verbose.
  - vm_compute. reflexivity.
Qed.
End preprocessor_facts.

(** ** Further properties of the cache in memory *)

Section sort_more.
Import py.
Context {A : Type} (key : A → Z).

Lemma sort_same_key n l :
  Forall (λ x, key x = n) l → py.sort key l = l.
Proof.
  intros Hl. apply sort_ascending_id. unfold ascending.
  induction Hl as [|x l Hx Hl IH]; [constructor|].
  apply StronglySorted_cons. split; [|done].
  eapply Forall_impl; [exact Hl|]. simpl. intros. lia.
Qed.

Lemma filter_key_sort n l :
  filter (λ x, key x = n) (py.sort key l) = filter (λ x, key x = n) l.
Proof.
  rewrite filter_sort. apply (sort_same_key n).
  apply Forall_forall. intros x Hx. by apply list_elem_of_filter in Hx as [? _].
Qed.

(** A list in ascending order is determined by its entries of each key. *)
Lemma ascending_ext l1 l2 :
  ascending key l1 → ascending key l2 →
  (∀ n, filter (λ x, key x = n) l1 = filter (λ x, key x = n) l2) →
  l1 = l2.
Proof.
  unfold ascending. revert l2. induction l1 as [|x l1 IH]; intros l2 H1 H2 Heq.
  - destruct l2 as [|y l2]; [done|].
    specialize (Heq (key y)). rewrite filter_nil, filter_cons in Heq.
    by destruct (decide (key y = key y)).
  - apply StronglySorted_cons in H1 as [Hx H1].
    destruct l2 as [|y l2].
    { specialize (Heq (key x)). rewrite filter_nil, filter_cons in Heq.
      by destruct (decide (key x = key x)). }
    apply StronglySorted_cons in H2 as [Hy H2].
    assert (Hxy : key x = key y).
    { assert (x ∈ y :: l2) as Hin.
      { assert (x ∈ filter (λ z, key z = key x) (y :: l2)) as Hin.
        { rewrite <- Heq. apply list_elem_of_filter. split; [done|by left]. }
        by apply list_elem_of_filter in Hin as [_ ?]. }
      assert (y ∈ x :: l1) as Hin'.
      { assert (y ∈ filter (λ z, key z = key y) (x :: l1)) as Hin'.
        { rewrite Heq. apply list_elem_of_filter. split; [done|by left]. }
        by apply list_elem_of_filter in Hin' as [_ ?]. }
      apply elem_of_cons in Hin as [->|Hin]; [done|].
      apply elem_of_cons in Hin' as [->|Hin']; [done|].
      rewrite Forall_forall in Hx, Hy.
      specialize (Hx _ Hin'). specialize (Hy _ Hin). simpl in *. lia. }
    pose proof (Heq (key x)) as Hk. rewrite !filter_cons in Hk.
    destruct (decide (key x = key x)); [|done].
    destruct (decide (key y = key x)); [|congruence].
    injection Hk as -> Hk. f_equal. apply IH; [done|done|].
    intros n. specialize (Heq n). rewrite !filter_cons in Heq.
    destruct (decide (key y = n)); [by injection Heq|done].
Qed.

Lemma find_head_filter n (l : list A) :
  find (λ x, key x =? n) l = head (filter (λ x, key x = n) l).
Proof.
  induction l as [|x l IH]; [done|]. simpl. rewrite filter_cons.
  destruct (Z.eqb_spec (key x) n); by destruct (decide (key x = n)).
Qed.
End sort_more.

Lemma filter_none_Forall {A} (P : A → Prop) `{!∀ x, Decision (P x)} (l : list A) :
  Forall (λ x, ¬ P x) l → filter P l = [].
Proof.
  induction 1 as [|x l Hx _ IH]; [done|].
  rewrite filter_cons. by destruct (decide (P x)).
Qed.

Section cache_more.
Import py.
Import cache.
Implicit Types (c : Cache) (e : CacheEntry) (l : list CacheEntry) (n : Z).

Lemma get_episode_head c n :
  get_episode c n = head (filter (λ ep, episode_number ep = n) (episodes c)).
Proof. apply find_head_filter. Qed.

Lemma filter_number_add_episode c e n :
  filter (λ ep, episode_number ep = n) (episodes (add_episode c e)) =
  if decide (n = episode_number e) then [e]
  else filter (λ ep, episode_number ep = n) (episodes c).
Proof.
  rewrite episodes_add_episode, filter_key_sort, filter_app, list_filter_filter.
  rewrite (filter_cons _ e), filter_nil.
  destruct (decide (n = episode_number e)) as [->|Hne].
  - rewrite filter_none by (intros ep [? ?]; done).
    by destruct (decide (episode_number e = episode_number e)).
  - destruct (decide (episode_number e = n)); [congruence|].
    rewrite app_nil_r. apply list_filter_iff. intros ep. split; [tauto|].
    intros ->. split; [done|]. congruence.
Qed.

(** X1.  After [add_episode(entry)], [get_episode] returns the new entry
    for its number, and for every other number what it returned before. *)
Theorem get_episode_add_episode c e n :
  get_episode (add_episode c e) n =
  if decide (n = episode_number e) then Some e else get_episode c n.
Proof.
  rewrite !get_episode_head, filter_number_add_episode.
  by destruct (decide (n = episode_number e)).
Qed.

(** X2.  [add_episode] keeps, up to their order, the entries whose number
    differs from that of the new entry, and adds the new entry once; the
    store grows by one entry at most. *)
Theorem add_episode_permutation c e :
  get_all_episodes (add_episode c e) ≡ₚ
    e :: filter (λ ep, episode_number ep ≠ episode_number e) (get_all_episodes c) ∧
  (length (get_all_episodes (add_episode c e)) ≤ S (length (get_all_episodes c)))%nat.
Proof.
  unfold get_all_episodes. rewrite episodes_add_episode.
  assert (Hp : py.sort episode_number
            (filter (λ ep, episode_number ep ≠ episode_number e) (episodes c) ++ [e])
          ≡ₚ e :: filter (λ ep, episode_number ep ≠ episode_number e) (episodes c)).
  { rewrite sort_perm. by rewrite Permutation_app_comm. }
  split; [done|]. rewrite Hp. simpl.
  apply le_n_S, length_filter.
Qed.

Lemma cache_eq c c' :
  cache_file c = cache_file c' → season c = season c' →
  episodes c = episodes c' → c = c'.
Proof. destruct c, c'. simpl. by intros -> -> ->. Qed.

(** X3.  Adding the same entry twice leaves the cache as adding it
    once. *)
Theorem add_episode_idempotent c e :
  add_episode (add_episode c e) e = add_episode c e.
Proof.
  apply cache_eq; [done|done|].
  apply (ascending_ext episode_number); [apply add_episode_ascending..|].
  intros n. rewrite !filter_number_add_episode.
  by destruct (decide (n = episode_number e)).
Qed.

(** X4.  Two entries with different numbers can be added in either
    order: the cache is the same. *)
Theorem add_episode_commutes c e1 e2 :
  episode_number e1 ≠ episode_number e2 →
  add_episode (add_episode c e1) e2 = add_episode (add_episode c e2) e1.
Proof.
  intros Hne. apply cache_eq; [done|done|].
  apply (ascending_ext episode_number); [apply add_episode_ascending..|].
  intros n. rewrite !filter_number_add_episode.
  destruct (decide (n = episode_number e1)), (decide (n = episode_number e2));
    congruence.
Qed.

(** X5.  An entry that [get_episode(n)] returns is an entry of the store
    and has number [n]; [get_episode(n)] returns nothing exactly when no
    entry of the store has number [n]. *)
Theorem get_episode_spec c n :
  (∀ ep, get_episode c n = Some ep →
     ep ∈ get_all_episodes c ∧ episode_number ep = n) ∧
  (get_episode c n = None ↔
     ∀ ep, ep ∈ get_all_episodes c → episode_number ep ≠ n).
Proof.
  unfold get_episode, get_all_episodes. split.
  - intros ep Hf. apply find_some in Hf as [Hin Hn].
    split; [by apply list_elem_of_In|]. by apply Z.eqb_eq.
  - split.
    + intros Hf ep Hin. apply list_elem_of_In in Hin.
      pose proof (find_none _ _ Hf ep Hin) as Hn. simpl in Hn.
      by apply Z.eqb_neq.
    + intros Hno. destruct (find _ _) as [ep|] eqn:Hf; [|done].
      apply find_some in Hf as [Hin Hn].
      destruct (Hno ep); [by apply list_elem_of_In|by apply Z.eqb_eq].
Qed.

(** X6.  [get_episodes_in_range(a, b)] is empty when [b < a].  In a store
    in ascending order, the range from [a] to [d] is the range from [a] to
    [b] followed by the range from [b + 1] to [d]. *)
Theorem get_episodes_in_range_split c a b d :
  (b < a → get_episodes_in_range c a b = []) ∧
  (ascending episode_number (get_all_episodes c) →
   a ≤ b + 1 → b ≤ d →
   get_episodes_in_range c a b ++ get_episodes_in_range c (b + 1) d =
   get_episodes_in_range c a d).
Proof.
  unfold get_episodes_in_range, get_all_episodes. split.
  { intros Hba. apply filter_none. intros ep. lia. }
  intros Hl Hab Hbd.
  induction (episodes c) as [|x l IH]; [done|].
  pose proof Hl as Hl'. unfold ascending in Hl'.
  apply StronglySorted_cons in Hl' as [Hx Hl'].
  rewrite !filter_cons.
  destruct (decide (a ≤ episode_number x ≤ b)) as [H1|H1];
    destruct (decide (b + 1 ≤ episode_number x ≤ d)) as [H2|H2];
    destruct (decide (a ≤ episode_number x ≤ d)) as [H3|H3]; try lia.
  - simpl. f_equal. by apply IH.
  - assert (Hnone : filter (λ ep, a ≤ episode_number ep ≤ b) l = []).
    { apply filter_none_Forall. apply Forall_forall. intros y Hy.
      rewrite Forall_forall in Hx. specialize (Hx y Hy). simpl in Hx. lia. }
    rewrite Hnone in *. simpl. f_equal. by apply IH.
  - by apply IH.
Qed.

(** X7.  In a store in strictly ascending order, the range from [n] to
    [n] is the entry of [get_episode(n)], or empty when there is none. *)
Theorem get_episodes_in_range_single c n :
  strictly_ascending episode_number (get_all_episodes c) →
  get_episodes_in_range c n n =
  match get_episode c n with
  | Some ep => [ep]
  | None => []
  end.
Proof.
  unfold get_episodes_in_range, get_all_episodes. rewrite get_episode_head.
  intros Hl.
  rewrite (list_filter_iff _ (λ ep, episode_number ep = n)) by (intros; lia).
  unfold strictly_ascending in Hl.
  induction (episodes c) as [|x l IH]; [done|].
  apply StronglySorted_cons in Hl as [Hx Hl]. rewrite filter_cons.
  destruct (decide (episode_number x = n)) as [Hn|Hn]; [|by apply IH].
  simpl. f_equal. apply filter_none_Forall.
  eapply Forall_impl; [exact Hx|]. simpl. intros. lia.
Qed.
End cache_more.

(** ** Further properties of the entry codec *)

Section codec_more.
Import py.
Import json cache.

(** X8.  [from_dict(entry.to_dict())] rebuilds the entry, with the time
    of the call in place of an empty [extracted_at]: it is the entry
    itself when its [extracted_at] is not empty. *)
Theorem from_dict_to_dict_init now e :
  from_dict now (to_dict e) =
    Return (CacheEntry_init now (episode_number e) (title e) (episode_url e)
              (m3u8_url e) (Some (extracted_at e))) ∧
  (extracted_at e ≠ [] → from_dict now (to_dict e) = Return e).
Proof.
  split; [|apply from_dict_to_dict].
  destruct e as [n t u m x]. simpl. by destruct x.
Qed.

(** X9.  [from_dict] raises [KeyError] on an object that lacks one of
    [episode_number], [title], [episode_url] and [m3u8_url], and
    [TypeError] on a value that is not an object. *)
Theorem from_dict_missing_field now data :
  (∀ kvs k, data = JDict kvs → k ∈ required_names → assoc k kvs = None →
     from_dict now data = Raise KeyError) ∧
  ((∀ kvs, data ≠ JDict kvs) → from_dict now data = Raise TypeError).
Proof.
  split.
  - intros kvs k -> Hk Hnone. unfold from_dict, getitem.
    unfold required_names in Hk.
    repeat (apply elem_of_cons in Hk as [->|Hk]);
      [..|by apply elem_of_nil in Hk]; rewrite ?Hnone;
      repeat match goal with
      | |- context [assoc ?k kvs] => destruct (assoc k kvs); cbn
      end; done.
  - intros Hnd. destruct data; try done. by destruct (Hnd kvs).
Qed.

(** X10.  [from_dict] reads the five fields of an entry and nothing
    else: on two objects that agree on them it gives the same result. *)
Theorem from_dict_ignores_other_fields now kvs kvs' :
  (∀ k, k ∈ field_names → assoc k kvs = assoc k kvs') →
  from_dict now (JDict kvs) = from_dict now (JDict kvs').
Proof.
  intros Heq. unfold from_dict, getitem, get.
  rewrite !(Heq (lit "episode_number")), !(Heq (lit "title")),
    !(Heq (lit "episode_url")), !(Heq (lit "m3u8_url")),
    !(Heq (lit "extracted_at")); [done|unfold field_names..].
  all: repeat first [apply list_elem_of_here | apply list_elem_of_further].
Qed.
End codec_more.


(** ** Further properties of [load] and [save] *)

Section load_more.
Import py.
Import fs json cache.
Implicit Types (files : filesystem) (env : faults) (c : Cache).

Lemma stat_exists files p x : stat files p = Some x → exists_ files p = true.
Proof. unfold exists_. by intros ->. Qed.

(** X11.  A successful [load] does not depend on what the cache held
    before: from any other content, with the same file, it gives the same
    cache. *)
Theorem load_overwrites_store env now c c' files r :
  cache_file c = cache_file c' →
  load env now c files = (true, r) →
  load env now c' files = (true, r).
Proof.
  intros Hcf. unfold load, set_episodes, set_season. simpl. rewrite <- Hcf.
  destruct (negb (exists_ files (cache_file c))); [done|].
  destruct (read_json env (cache_file c) files) as [[data|e] ?]; [|done].
  destruct (get data (lit "season") JNull ≫= as_optional_int) as [s|e]; [|done].
  by destruct (_ ≫= _) as [l|e].
Qed.

(** X12.  A cache file that holds an object with neither [season] nor
    [episodes] loads as the empty cache with no season. *)
Theorem load_missing_keys env now c files kvs :
  read_fails env = false →
  stat files (cache_file c) = Some (File (Json (JDict kvs))) →
  assoc (lit "season") kvs = None →
  assoc (lit "episodes") kvs = None →
  load env now c files = (true, clear c).
Proof.
  intros Hr Hst Hs He. unfold load, read_json.
  rewrite (stat_exists _ _ _ Hst), Hr, Hst. cbn [negb]. cbv iota.
  unfold get. by rewrite Hs, He.
Qed.

(** X13.  A cache file that holds a JSON value other than an object
    makes [load] return [False] and leaves the cache as it was. *)
Theorem load_not_an_object env now c files v :
  read_fails env = false →
  stat files (cache_file c) = Some (File (Json v)) →
  (∀ kvs, v ≠ JDict kvs) →
  load env now c files = (false, c).
Proof.
  intros Hr Hst Hv. unfold load, read_json.
  rewrite (stat_exists _ _ _ Hst), Hr, Hst. cbn.
  destruct v; try done. by destruct (Hv kvs).
Qed.

(** X14.  When the file holds a season and a list of episodes one of
    which cannot be decoded, for it is not an object or lacks a required
    key, [load] returns [False] with the season of the file already
    assigned and the episodes as they were. *)
Theorem load_fails_after_season env now c files kvs s items item :
  read_fails env = false →
  stat files (cache_file c) = Some (File (Json (JDict kvs))) →
  (assoc (lit "season") kvs = None ∧ s = None) ∨
  (assoc (lit "season") kvs = Some JNull ∧ s = None) ∨
  (∃ n, assoc (lit "season") kvs = Some (JInt n) ∧ s = Some n) →
  assoc (lit "episodes") kvs = Some (JList items) →
  item ∈ items → undecodable item →
  load env now c files = (false, set_season c s).
Proof.
  intros Hr Hst Hs He Hin Hitem.
  apply (load_bad_episodes env now c files kvs s); [|done|].
  - unfold read_json. by rewrite Hr, Hst.
  - exists (JList items). split; [done|]. right. by exists items, item.
Qed.
End load_more.

Section save_more.
Import py.
Import fs json cache.
Implicit Types (files : filesystem) (env : faults) (c : Cache).

(** X15.  A [save] that fails leaves the cache file readable: when the
    file held the document of an earlier cache, it still loads as that
    cache. *)
Theorem failed_save_keeps_snapshot env env' now c old files files' :
  cache_file old = cache_file c →
  stat files (cache_file c) = Some (File (Json (data_of old))) →
  Forall (λ e, extracted_at e ≠ []) (episodes old) →
  save env c files = (false, files') →
  read_fails env' = false →
  load env' now (Cache_init (cache_file c)) files' = (true, old).
Proof.
  intros Hcf Hst Hold Hs Hr.
  apply save_cases in Hs as (f1 & Hf1 & Hcase).
  assert (Hsp : bool_decide (cache_file c = []) || bool_decide (cache_file c = root) = false).
  { revert Hst. unfold stat. by destruct (_ || _). }
  assert (Hfile : files !! cache_file c = Some (File (Json (data_of old)))).
  { revert Hst. unfold stat. by rewrite Hsp. }
  assert (Ht : f1 !! cache_file c = files !! cache_file c).
  { destruct (Hf1 (cache_file c)) as [?|(Hin&Hst'&_)]; [done|]. congruence. }
  assert (Hst' : stat files' (cache_file c) = Some (File (Json (data_of old)))).
  { unfold stat. rewrite Hsp.
    destruct Hcase as [[_ ->]|[(n & x & _ & _ & Hfree & _ & ->)|(n & ? & _)]];
      [congruence| |done].
    rewrite lookup_insert_ne; [congruence|]. intros Heq.
    rewrite Heq, Ht, Hfile in Hfree. done. }
  destruct old as [t s l]. simpl in *. subst t.
  by apply (load_document env' now (Cache_init (cache_file c)) files' s l).
Qed.
End save_more.

(** ** The form of the manifest URL *)

Section extractor_more.
Import py.
Import re extractor.
Context `{!Unicode}.

Lemma ascii_url_chars s :
  forallb ascii_url_char s = true → Forall url_char s.
Proof.
  induction s as [|c s IH]; simpl; [constructor|].
  rewrite andb_true_iff. intros [Hc Hs]. constructor; [|by apply IH].
  unfold ascii_url_char in Hc. rewrite !andb_true_iff, !negb_true_iff in Hc.
  destruct Hc as [[Hc Hq] Hsp]. split; [by apply Z.eqb_neq|].
  unfold isspace. by rewrite Hc.
Qed.

Lemma in_cls_url_char c : in_cls UrlChar c = true → url_char c.
Proof.
  unfold in_cls, url_char. rewrite andb_true_iff, !negb_true_iff.
  intros [Hq Hs]. split; [by apply Z.eqb_neq|done].
Qed.

(** The form of a text that matches the manifest pattern. *)
Lemma matches_m3u8_pattern m g :
  matches m3u8_pattern m g →
  ∃ w1 w2,
    m = lit "https://" ++ w1 ++ lit "/hls.m3u8?viewerToken=" ++ w2 ∧
    w1 ≠ [] ∧ w2 ≠ [] ∧ Forall url_char w1 ∧ Forall url_char w2.
Proof.
  unfold m3u8_pattern. intros Hm.
  apply matches_chars in Hm as (m1 & -> & Hm).
  apply (matches_Many_inv UrlChar 1) in Hm as (w1 & s1 & -> & Hw1 & Hmin1 & Hm).
  apply matches_chars in Hm as (m2 & -> & Hm).
  apply (matches_Many_inv UrlChar 1) in Hm as (w2 & s2 & -> & Hw2 & Hmin2 & Hm).
  inversion Hm; subst. rewrite app_nil_r.
  exists w1, w2. split_and!; [done| | | |].
  - destruct w1; simpl in *; [lia|done].
  - destruct w2; simpl in *; [lia|done].
  - eapply Forall_impl; [exact Hw1|]. apply in_cls_url_char.
  - eapply Forall_impl; [exact Hw2|]. apply in_cls_url_char.
Qed.

Lemma first_in_text_form text u :
  first_in_text text = Some u →
  (∃ pre post, text = pre ++ u ++ post) ∧
  ∃ w1 w2,
    u = lit "https://" ++ w1 ++ lit "/hls.m3u8?viewerToken=" ++ w2 ∧
    w1 ≠ [] ∧ w2 ≠ [] ∧ Forall url_char w1 ∧ Forall url_char w2.
Proof.
  unfold first_in_text. destruct (search m3u8_pattern text) as [mt|] eqn:Hs; [|done].
  intros [= <-]. apply search_leftmost in Hs as (pre & post & Htext & Hm & _).
  split; [by exists pre, post|]. by eapply matches_m3u8_pattern.
Qed.

Lemma first_in_scripts_text scripts u :
  first_in_scripts scripts = Some u →
  ∃ script text, script ∈ scripts ∧ string_ script = Some text ∧
                 first_in_text text = Some u.
Proof.
  unfold first_in_scripts. induction scripts as [|script scripts IH]; [done|].
  cbn [omap list_omap].
  destruct (string_ script ≫= first_in_text) as [v|] eqn:Hv.
  - intros [= ->]. destruct (string_ script) as [text|] eqn:Ht; [|done].
    exists script, text. split_and!; [by left|done|done].
  - intros Hh. destruct (IH Hh) as (sc & text & Hin & Ht & Hf).
    exists sc, text. split_and!; [by right|done|done].
Qed.

Lemma manifest_strategies soup html_content :
  _extract_m3u8_url soup html_content =
    match metadata_url soup with
    | Some url => Some url
    | None =>
      match first_in_text html_content with
      | Some url => Some url
      | None => first_in_scripts (find_all_script soup)
      end
    end.
Proof.
  unfold _extract_m3u8_url, metadata_url.
  rewrite <- scan_scripts_spec, <- first_in_text_findall.
  destruct (find_meta soup (lit "og:url")) as [og_url|]; simpl.
  - destruct (tag_get og_url (lit "content")) as [[|c u]|]; simpl.
    + by destruct (findall m3u8_pattern html_content).
    + destruct (_ && _); [done|].
      by destruct (findall m3u8_pattern html_content).
    + by destruct (findall m3u8_pattern html_content).
  - by destruct (findall m3u8_pattern html_content).
Qed.

Lemma scanned_has_markers u w1 w2 :
  u = lit "https://" ++ w1 ++ lit "/hls.m3u8?viewerToken=" ++ w2 →
  contains u (lit "hls.m3u8") = true ∧ contains u (lit "viewerToken=") = true.
Proof.
  intros ->. split; apply contains_spec.
  - exists (lit "https://" ++ w1 ++ lit "/"), (lit "?viewerToken=" ++ w2).
    rewrite <- !(assoc_L (++)). reflexivity.
  - exists (lit "https://" ++ w1 ++ lit "/hls.m3u8?"), w2.
    rewrite <- !(assoc_L (++)). reflexivity.
Qed.

Lemma scan_result_has_markers soup html_content u :
  match first_in_text html_content with
  | Some url => Some url
  | None => first_in_scripts (find_all_script soup)
  end = Some u →
  u ≠ [] ∧
  contains u (lit "hls.m3u8") = true ∧ contains u (lit "viewerToken=") = true.
Proof.
  intros Hu.
  assert (∃ text, first_in_text text = Some u) as [text Hf].
  { destruct (first_in_text html_content) as [v|] eqn:Hv.
    - injection Hu as ->. by exists html_content.
    - apply first_in_scripts_text in Hu as (script & text & _ & _ & Hf).
      by exists text. }
  apply first_in_text_form in Hf as (_ & w1 & w2 & Hform & _).
  split; [by rewrite Hform|by eapply scanned_has_markers].
Qed.

(** X16.  A URL that [_extract_m3u8_url] returns, by any of its
    strategies, is not empty and contains both [hls.m3u8] and
    [viewerToken=]. *)
Theorem manifest_has_markers soup html_content u :
  _extract_m3u8_url soup html_content = Some u →
  u ≠ [] ∧
  contains u (lit "hls.m3u8") = true ∧ contains u (lit "viewerToken=") = true.
Proof.
  rewrite manifest_strategies. unfold metadata_url.
  destruct (find_meta soup (lit "og:url")) as [og|]; cbn [mbind option_bind];
    [|apply scan_result_has_markers].
  destruct (tag_get og (lit "content")) as [url|]; cbn [mbind option_bind];
    [|apply scan_result_has_markers].
  destruct (contains url (lit "hls.m3u8")) eqn:H1;
    destruct (contains url (lit "viewerToken=")) eqn:H2; cbn [andb];
    try apply scan_result_has_markers.
  intros [= <-]. split; [|done]. by intros ->.
Qed.

(** X17.  When the metadata give no URL, a URL that [_extract_m3u8_url]
    returns occurs in the text of the page or of one of its script
    blocks, starts with [https://] and holds neither a double quote nor
    white space. *)
Theorem scanned_manifest_form soup html_content u :
  metadata_url soup = None →
  _extract_m3u8_url soup html_content = Some u →
  (∃ text pre post,
     (text = html_content ∨
      ∃ script, script ∈ find_all_script soup ∧ string_ script = Some text) ∧
     text = pre ++ u ++ post) ∧
  startswith u (lit "https://") = true ∧
  Forall url_char u.
Proof.
  intros Hmeta. rewrite manifest_strategies, Hmeta.
  intros Hu.
  assert (∃ text, (text = html_content ∨
            ∃ script, script ∈ find_all_script soup ∧ string_ script = Some text) ∧
          first_in_text text = Some u) as (text & Hwhere & Hf).
  { destruct (first_in_text html_content) as [v|] eqn:Hv.
    - injection Hu as ->. exists html_content. split; [by left|done].
    - apply first_in_scripts_text in Hu as (script & text & Hin & Ht & Hf).
      exists text. split; [right; by exists script|done]. }
  apply first_in_text_form in Hf as ((pre & post & Htext) & w1 & w2 & -> & _ & _ & H1 & H2).
  split_and!.
  - by exists text, pre, post.
  - apply startswith_spec. by eexists.
  - apply Forall_app_2; [by apply ascii_url_chars|].
    apply Forall_app_2; [done|].
    apply Forall_app_2; [by apply ascii_url_chars|done].
Qed.
End extractor_more.

(** ** White space around a string *)

Section strip_facts.
Import py.
Context `{!Unicode}.

Lemma drop_while_all {A} (p : A → bool) l :
  Forall (λ c, p c = true) l → drop_while p l = [].
Proof. induction 1 as [|c l Hc _ IH]; simpl; [done|]. by rewrite Hc. Qed.

Lemma drop_while_head {A} (p : A → bool) l c :
  head (drop_while p l) = Some c → p c = false.
Proof.
  induction l as [|x l IH]; simpl; [done|].
  destruct (p x) eqn:Hx; [done|]. simpl. by intros [= <-].
Qed.

Lemma drop_while_id {A} (p : A → bool) l :
  (∀ c, head l = Some c → p c = false) → drop_while p l = l.
Proof. destruct l as [|x l]; simpl; [done|]. intros Hh. by rewrite (Hh x). Qed.

Lemma drop_while_suffix {A} (p : A → bool) l :
  ∃ k, l = k ++ drop_while p l ∧ Forall (λ c, p c = true) k.
Proof.
  induction l as [|x l (k & Hk & Hp)]; simpl; [by exists []|].
  destruct (p x) eqn:Hx; [|by exists []].
  exists (x :: k). split; [by rewrite Hk at 1|by constructor].
Qed.

Lemma strip_blank s : blank s → strip s = [].
Proof.
  intros Hs. unfold strip, lstrip, rstrip. by rewrite (drop_while_all _ _ Hs).
Qed.

Lemma head_reverse {A} (l : list A) : head (reverse l) = last l.
Proof. by rewrite <- last_reverse, reverse_involutive. Qed.

Lemma strip_trimmed s : trimmed (strip s).
Proof.
  unfold strip, rstrip, lstrip. intros c [Hh|Hl].
  - destruct (drop_while_suffix isspace (reverse (drop_while isspace s)))
      as (k & Hk & Hp).
    set (d := drop_while isspace (reverse (drop_while isspace s))) in *.
    apply (f_equal reverse) in Hk. rewrite reverse_involutive, reverse_app in Hk.
    destruct (reverse d) as [|x r] eqn:Hd; [done|]. simpl in Hh.
    injection Hh as ->.
    apply (drop_while_head isspace s). by rewrite Hk.
  - rewrite last_reverse in Hl. by apply drop_while_head in Hl.
Qed.

Lemma trimmed_strip s : trimmed s → strip s = s.
Proof.
  intros Hs. unfold strip, rstrip, lstrip.
  rewrite (drop_while_id _ s) by (intros c Hc; apply Hs; by left).
  rewrite drop_while_id; [by rewrite reverse_involutive|].
  intros c Hc. apply Hs. right. by rewrite <- head_reverse.
Qed.
End strip_facts.

(** ** The list file and the batch run *)

Section preprocessor_more.
Import py.
Import fs cache extractor preprocessor.
Context `{!Unicode, !Platform}.

Lemma read_text_exists env p files text :
  (read_text json_text env p files).1 = Return text → exists_ files p = true.
Proof.
  unfold read_text, exists_. destruct (read_fails env); [done|].
  by destruct (stat files p) as [[|[j|raw]]|].
Qed.

Lemma accepts_examinable env files line :
  (startswith line (lit "http") = false →
   unexaminable env (Path line) = false) →
  accepts env files line =
    Return (bool_decide (startswith line (lit "http") = true ∨
                         exists_ files (Path line) = true ∨
                         endswith line (lit ".html") = true)).
Proof.
  intros Hex. unfold accepts, Path_exists.
  destruct (startswith line (lit "http")).
  { done. }
  rewrite Hex by done. cbn [mbind result_bind].
  by destruct (exists_ files (Path line)), (endswith line (lit ".html")).
Qed.

(** The loop of [_read_url_list] when every path it asks about can be
    examined. *)
Lemma read_items_examinable env files lines :
  (∀ l, l ∈ lines → startswith (strip l) (lit "http") = false →
        unexaminable env (Path (strip l)) = false) →
  read_items env files lines =
    Return (filter (λ line, startswith line (lit "http") = true ∨
                            exists_ files (Path line) = true ∨
                            endswith line (lit ".html") = true)
                   (strip <$> lines)).
Proof.
  induction lines as [|l lines IH]; intros Hex; [done|].
  cbn [read_items]. rewrite accepts_examinable.
  2: { apply Hex. by left. }
  cbn [mbind result_bind]. rewrite IH.
  2: { intros l' Hl'. apply Hex. by right. }
  cbn [mbind result_bind]. rewrite fmap_cons, filter_cons.
  by destruct (decide _) as [Hd|Hd];
    [rewrite bool_decide_eq_true_2|rewrite bool_decide_eq_false_2].
Qed.

Lemma accepts_true env files line :
  accepts env files line = Return true →
  startswith line (lit "http") = true ∨
  exists_ files (Path line) = true ∨
  endswith line (lit ".html") = true.
Proof.
  unfold accepts, Path_exists. destruct (startswith line (lit "http")); [by left|].
  destruct (unexaminable env (Path line)); [done|]. cbn.
  intros [= Hor]. apply orb_true_iff in Hor. tauto.
Qed.

Lemma read_items_item env files lines items item :
  read_items env files lines = Return items → item ∈ items →
  ∃ line, line ∈ lines ∧ item = strip line ∧
          (startswith item (lit "http") = true ∨
           exists_ files (Path item) = true ∨
           endswith item (lit ".html") = true).
Proof.
  revert items. induction lines as [|l lines IH]; intros items; cbn [read_items].
  { intros [= <-]. by intros ?%elem_of_nil. }
  destruct (accepts env files (strip l)) as [keep|] eqn:Ha;
    cbn [mbind result_bind]; [|done].
  destruct (read_items env files lines) as [items'|] eqn:Hi;
    cbn [mbind result_bind]; [|done].
  intros [= <-] Hin.
  assert (item ∈ items' → ∃ line, line ∈ l :: lines ∧ item = strip line ∧
            (startswith item (lit "http") = true ∨
             exists_ files (Path item) = true ∨
             endswith item (lit ".html") = true)) as Hrest.
  { intros Hin'. destruct (IH _ eq_refl Hin') as (line & ? & ? & ?).
    exists line. split; [by right|done]. }
  destruct keep; [|by apply Hrest].
  apply elem_of_cons in Hin as [->|Hin]; [|by apply Hrest].
  exists l. split_and!; [by left|done|by eapply accepts_true].
Qed.

(** X18.  When every path that [_read_url_list] asks about can be
    examined, it does not skip blank lines: a line of white space gives
    the empty item, because the path of the empty string is the current
    directory, which exists.  Lines end at line feeds. *)
Theorem read_url_list_keeps_blank_lines env files file_path text line :
  unexaminable env (Path file_path) = false →
  (read_text json_text env (Path file_path) files).1 = Return text →
  (∀ l, l ∈ readlines text → startswith (strip l) (lit "http") = false →
        unexaminable env (Path (strip l)) = false) →
  line ∈ readlines text → blank line →
  [] ∈ (_read_url_list env files file_path).1.
Proof.
  intros Hp Hr Hex Hin Hb. unfold _read_url_list, Path_exists.
  rewrite Hp, (read_text_exists _ _ _ _ Hr).
  destruct (read_text _ _ _ _) as [[t|e] ?]; simpl in Hr; [|done].
  injection Hr as ->. rewrite (read_items_examinable _ _ _ Hex). simpl.
  apply list_elem_of_filter. split; [right; left; reflexivity|].
  apply list_elem_of_fmap. exists line. by rewrite strip_blank.
Qed.

(** X19.  Every item of [_read_url_list] is a line of the file without
    the white space around it, on which [strip] has no further effect; it
    starts with [http], or names an existing path, or ends with
    [.html]. *)
Theorem read_url_list_items env files file_path item :
  item ∈ (_read_url_list env files file_path).1 →
  trimmed item ∧ strip item = item ∧
  (startswith item (lit "http") = true ∨
   exists_ files (Path item) = true ∨
   endswith item (lit ".html") = true) ∧
  ∃ text line, (read_text json_text env (Path file_path) files).1 = Return text ∧
               line ∈ readlines text ∧ item = strip line.
Proof.
  unfold _read_url_list.
  destruct (Path_exists _ _ _) as [[|]|e]; [|by intros ?%elem_of_nil..].
  destruct (read_text _ _ _ _) as [[text|e] ?]; simpl.
  2: { by intros ?%elem_of_nil. }
  destruct (read_items env files (readlines text)) as [items|e] eqn:Hi; simpl.
  2: { by intros ?%elem_of_nil. }
  intros Hin. destruct (read_items_item _ _ _ _ _ Hi Hin) as (line & Hl & -> & Hc).
  split_and!; [apply strip_trimmed|apply trimmed_strip, strip_trimmed|done|].
  by exists text, line.
Qed.

(** X20.  [process_url_list] never returns [True] and never changes the
    file system: either it reads no source, or the unpacking of the first
    extraction raises. *)
Theorem process_url_list_never_succeeds verbose env now url_list_file
    cache_file season files :
  let r := process_url_list verbose env now url_list_file cache_file season files in
  r.1.1 = false ∧ r.1.2 = files.
Proof.
  destruct (_read_url_list env files url_list_file) as [[|item rest] out] eqn:Hr.
  - unfold process_url_list. by rewrite Hr.
  - by rewrite (process_url_list_aborts _ _ _ _ _ _ _ _ _ _ Hr).
Qed.

(** X21.  [extract_from_file] returns three components.  The URL is
    absent exactly when the error is present, and a URL returned is not
    empty.  For a path that cannot be examined, only the text of the
    error is returned; for a path that can be examined and where nothing
    is, the title is absent too and the error names the path. *)
Theorem extract_from_file_shape env files file_path :
  ∃ url title error,
    extract_from_file env files file_path = [url; title; error] ∧
    (url = None ↔ error ≠ None) ∧ url ≠ Some [] ∧
    (unexaminable env (Path file_path) = true →
     url = None ∧ title = None ∧ error = Some (describe OSError)) ∧
    (unexaminable env (Path file_path) = false →
     exists_ files (Path file_path) = false →
     url = None ∧ title = None ∧
     error = Some (lit "File not found: " ++ file_path)).
Proof.
  unfold extract_from_file, extract_from_html, Path_exists.
  destruct (unexaminable env (Path file_path)).
  { eexists _, _, _. split; [done|]. split_and!; done. }
  destruct (exists_ files (Path file_path)); simpl.
  2: { eexists _, _, _. split; [done|]. split_and!; done. }
  destruct (read_text _ _ _ _) as [[html|e] ?].
  2: { eexists _, _, _. split; [done|]. split_and!; done. }
  destruct (_extract_m3u8_url _ _) as [[|? ?]|];
    eexists _, _, _; (split; [done|]); split_and!; done.
Qed.
End preprocessor_more.

(** ** Titles and their numbers *)

Section title_more.
Import py.
Import re extractor.
Context `{!Unicode}.

(** X22.  When [og:title] is missing or has no content, [_extract_title]
    returns the text of the title element without the white space around
    it; a title of white space only gives the empty string, not
    [None]. *)
Theorem extract_title_from_title_tag soup tag s :
  (∀ og, find_meta soup (lit "og:title") = Some og →
         tag_get og (lit "content") = None ∨
         tag_get og (lit "content") = Some []) →
  find_title soup = Some tag → string_ tag = Some s → s ≠ [] →
  _extract_title soup = Some (strip s) ∧ trimmed (strip s) ∧
  (blank s → _extract_title soup = Some []).
Proof.
  intros Hog Ht Hs Hne.
  assert (He : _extract_title soup = Some (strip s)).
  { unfold _extract_title. rewrite Ht, Hs.
    destruct (find_meta soup (lit "og:title")) as [og|].
    - destruct (Hog og eq_refl) as [-> | ->]; by destruct s.
    - by destruct s. }
  split_and!; [done|apply strip_trimmed|].
  intros Hb. by rewrite He, strip_blank.
Qed.

Lemma decimal_range c d : decimal c = Some d → 0 ≤ d ≤ 9.
Proof.
  unfold decimal. destruct (c <? 128).
  - intros Hd%ascii_digit_range. lia.
  - apply uni_decimal_range.
Qed.

Lemma digits_from_nonneg acc w : 0 ≤ acc → 0 ≤ digits_from acc w.
Proof.
  revert acc. induction w as [|c w IH]; intros acc Hacc; [done|].
  unfold digits_from. cbn [foldl]. apply IH.
  destruct (decimal c) as [d|] eqn:Hd; simpl; [|lia].
  apply decimal_range in Hd. lia.
Qed.

(** X23.  A number that [extract_episode_number] returns is not
    negative. *)
Theorem extract_episode_number_nonneg title n :
  extract_episode_number title = Return (Some n) → 0 ≤ n.
Proof.
  intros Hn. unfold extract_episode_number in Hn.
  destruct (first_match_spec patterns title patterns_digit_group)
    as [[Hnone _]|(k & p & mt & w & _ & _ & _ & _ & Hr)]; [congruence|].
  rewrite Hr in Hn. destruct (_ <? _); [done|]. injection Hn as <-.
  by apply (digits_from_nonneg 0 w).
Qed.
End title_more.

(** ** Further properties of the episode selector *)

Section selector_more.
Import py.
Import cache cli.
Context `{!Unicode}.

Lemma split_nonempty sep s : split sep s ≠ [].
Proof.
  destruct s as [|c s]; simpl; [done|].
  destruct (c =? sep); [done|]. by destruct (split sep s).
Qed.

Lemma split_app sep a b :
  split sep (a ++ sep :: b) = split sep a ++ split sep b.
Proof.
  induction a as [|c a IH]; simpl.
  - by rewrite Z.eqb_refl.
  - destruct (c =? sep); [by rewrite IH|]. rewrite IH.
    pose proof (split_nonempty sep a). by destruct (split sep a).
Qed.

Lemma term_episodes_from_cache c part ep :
  ep ∈ term_episodes c part → ep ∈ get_all_episodes c.
Proof.
  unfold term_episodes, get_all_episodes.
  destruct (classify part) as [a b|n|].
  - unfold get_episodes_in_range. by intros [_ ?]%list_elem_of_filter.
  - unfold get_episode. destruct (find _ _) as [x|] eqn:Hf.
    + intros ->%list_elem_of_singleton.
      apply find_some in Hf as [Hin _]. by apply list_elem_of_In.
    + by intros ?%elem_of_nil.
  - by intros ?%elem_of_nil.
Qed.

(** X24.  Every entry that [parse_episode_selection] returns is an entry
    of the cache. *)
Theorem parse_episode_selection_from_cache selection c eps ws ep :
  parse_episode_selection selection c = Return (eps, ws) →
  ep ∈ eps → ep ∈ get_all_episodes c.
Proof.
  unfold parse_episode_selection. rewrite select_parts_spec. simpl.
  intros [= <- _]. revert ep. apply Forall_forall, Forall_concat, Forall_fmap.
  apply Forall_forall. intros part _. apply Forall_forall. intros ep.
  apply term_episodes_from_cache.
Qed.

(** X25.  The selection [a,b] gives the entries and the warnings of [a]
    followed by those of [b]. *)
Theorem parse_episode_selection_comma a b c :
  parse_episode_selection (a ++ lit "," ++ b) c =
    '(eps1, ws1) ← parse_episode_selection a c;
    '(eps2, ws2) ← parse_episode_selection b c;
    Return (eps1 ++ eps2, ws1 ++ ws2).
Proof.
  unfold parse_episode_selection. rewrite !select_parts_spec. cbn.
  rewrite split_app.
  by rewrite !fmap_app, !concat_app.
Qed.
End selector_more.

(** ** The automatic cache *)

Section auto_cache_more.
Import py.
Import fs json cache extractor cli.
Context `{!Unicode}.
Implicit Types (files : filesystem) (env : faults) (c : Cache).

Lemma from_dict_extracted_at now data e :
  now ≠ [] → from_dict now data = Return e → extracted_at e ≠ [].
Proof.
  intros Hnow. unfold from_dict.
  repeat match goal with
  | |- context [mbind _ ?m] =>
    let x := fresh in destruct m as [x|]; cbn [mbind result_bind]; [|done]
  end.
  intros [= <-]. simpl. by repeat case_match.
Qed.

Lemma comprehension_extracted_at (now : nat → str) i items l :
  (∀ j, now j ≠ []) →
  comprehension (λ j ep, from_dict (now j) ep) i items = Return l →
  Forall (λ e, extracted_at e ≠ []) l.
Proof.
  intros Hnow. revert i l. induction items as [|item items IH]; intros i l; simpl.
  { intros [= <-]. constructor. }
  destruct (from_dict (now i) item) as [e|] eqn:He; cbn; [|done].
  destruct (comprehension _ (S i) items) as [l'|] eqn:Hl; cbn; [|done].
  intros [= <-]. constructor; [by eapply from_dict_extracted_at|by eapply IH].
Qed.

(** What [load] leaves in a cache that was just created. *)
Lemma load_init env now p files ok c :
  (∀ j, now j ≠ []) →
  load env now (Cache_init p) files = (ok, c) →
  cache_file c = p ∧ Forall (λ e, extracted_at e ≠ []) (episodes c) ∧
  (ok = false → episodes c = []).
Proof.
  intros Hnow. unfold load. cbn [cache_file Cache_init].
  destruct (negb _). { intros [= <- <-]. by split_and!. }
  destruct (read_json env p files) as [[data|e] ?].
  2: { intros [= <- <-]. by split_and!. }
  destruct (get data (lit "season") JNull ≫= as_optional_int) as [s|e].
  2: { intros [= <- <-]. by split_and!. }
  destruct (_ ≫= _) as [l|e] eqn:Hl.
  2: { intros [= <- <-]. by split_and!. }
  intros [= <- <-]. split_and!; [done| |done]. simpl.
  destruct (get data (lit "episodes") (JList [])) as [eps|]; cbn in Hl; [|done].
  destruct (iter eps) as [items|]; cbn in Hl; [|done].
  by eapply comprehension_extracted_at.
Qed.

Lemma add_episode_extracted_at c e :
  Forall (λ x, extracted_at x ≠ []) (episodes c) → extracted_at e ≠ [] →
  Forall (λ x, extracted_at x ≠ []) (episodes (add_episode c e)).
Proof.
  intros Hc He. rewrite episodes_add_episode, sort_perm.
  apply Forall_app_2; [|by constructor].
  apply Forall_forall. intros x [_ Hx]%list_elem_of_filter.
  revert x Hx. by apply Forall_forall.
Qed.

Lemma load_saved env env' now c files files' :
  Forall (λ e, extracted_at e ≠ []) (episodes c) →
  save env c files = (true, files') →
  read_fails env' = false →
  load env' now (Cache_init (cache_file c)) files' = (true, c).
Proof.
  intros Hl Hs Hr. pose proof (save_true_stat _ _ _ _ Hs) as Hst.
  destruct c as [t s l]. simpl in *.
  by apply (load_document env' now (Cache_init t) files' s l).
Qed.

Lemma auto_number_cases title :
  (∃ n, auto_number title = Return n ∧ 1 ≤ n) ∨
  auto_number title = Raise ValueError.
Proof.
  unfold auto_number.
  destruct title as [[|t tl]|]; [left; by exists 1| |left; by exists 1].
  unfold extract_episode_number.
  destruct (first_match_spec patterns (t :: tl) patterns_digit_group)
    as [[-> _]|(k & p & mt & w & _ & _ & _ & _ & ->)].
  { left. by exists 1. }
  destruct (_ <? _); [by right|]. left. cbn.
  assert (Hn : 0 ≤ decimal_value w) by apply (digits_from_nonneg 0 w), Z.le_refl.
  destruct (decimal_value w) as [|q|q] eqn:Hq; [by exists 1| |exfalso; lia].
  exists (Z.pos q). split; [done|lia].
Qed.

(** A call that reports success went through one [load], one
    [add_episode] and one [save] that succeeded. *)
Lemma save_to_auto_cache_success in_package env_load env_save now_load now
    source_url m3u8_url title files files' p n t :
  _save_to_auto_cache in_package env_load env_save now_load now source_url
      m3u8_url title true files = (files', [Cached_to p; Cached_episode n t]) →
  let old := (load env_load now_load (Cache_init (Path AUTO_CACHE_PATH)) files).2 in
  let entry := CacheEntry_init now n (title_or_default title n)
                 source_url m3u8_url None in
  1 ≤ n ∧ t = title ∧
  save env_save (add_episode old entry) files = (true, files').
Proof.
  unfold _save_to_auto_cache, load_call, Path_exists.
  destruct in_package; [|done]. cbn [negb].
  destruct (unexaminable env_load _); [done|].
  destruct (load _ _ _ _) as [ok old]. fold (auto_number title).
  destruct (auto_number_cases title) as [(k & -> & Hk)| ->]; [|done].
  cbn [snd].
  destruct (save _ _ _) as [[|] fs'] eqn:Hs; [|done].
  intros [= -> _ -> ->]. by rewrite Hs.
Qed.

(** X26.  After [_save_to_auto_cache] reports success, the automatic
    cache loads again: it holds the new entry under its number, for
    every other number the entry it held before, and the season it
    had. *)
Theorem auto_cache_records in_package env_load env_save now_load now
    source_url m3u8_url title files files' p n t env' now' :
  (∀ j, now_load j ≠ []) → now ≠ [] → read_fails env' = false →
  _save_to_auto_cache in_package env_load env_save now_load now source_url
      m3u8_url title true files = (files', [Cached_to p; Cached_episode n t]) →
  let old := (load env_load now_load (Cache_init (Path AUTO_CACHE_PATH)) files).2 in
  ∃ c', load env' now' (Cache_init (Path AUTO_CACHE_PATH)) files' = (true, c') ∧
        season c' = season old ∧
        get_episode c' n =
          Some (CacheEntry_init now n (title_or_default title n)
                  source_url m3u8_url None) ∧
        ∀ m, m ≠ n → get_episode c' m = get_episode old m.
Proof.
  intros Hnl Hnow Hr Hcall old.
  apply save_to_auto_cache_success in Hcall as (_ & _ & Hs). fold old in Hs.
  set (entry := CacheEntry_init now n (title_or_default title n)
                  source_url m3u8_url None) in *.
  destruct (load env_load now_load (Cache_init (Path AUTO_CACHE_PATH)) files)
    as [ok old'] eqn:Hl.
  apply load_init in Hl as (Hcf & Hold & _); [|done]. simpl in old. subst old.
  exists (add_episode old' entry).
  assert (Hload : load env' now' (Cache_init (Path AUTO_CACHE_PATH)) files' =
                  (true, add_episode old' entry)).
  { rewrite <- Hcf.
    apply (load_saved env_save env' now' (add_episode old' entry) files files');
      [|done|done].
    apply add_episode_extracted_at; [done|]. simpl. by destruct now. }
  split_and!; [done|done| |].
  - rewrite get_episode_head, filter_number_add_episode.
    by destruct (decide (n = episode_number entry)).
  - intros m Hm. rewrite !get_episode_head, filter_number_add_episode.
    by destruct (decide (m = episode_number entry)).
Qed.


(** A file from which no cache can be taken leaves the episodes of the
    store as they were. *)
Lemma load_unloadable env now c files :
  unloadable env files (cache_file c) →
  ∃ c', load env now c files = (false, c') ∧ episodes c' = episodes c.
Proof.
  intros [Hex [Hun|(v & Hv & [Hno|(kvs & s & -> & Hs & Hbad)])]].
  - exists c. by rewrite load_unreadable.
  - exists c. by rewrite (load_non_object _ _ _ _ v).
  - exists (set_season c s). by rewrite (load_bad_episodes _ _ _ _ kvs s).
Qed.

(** X28.  When the automatic cache is there and no cache can be taken
    from it, for it cannot be read or parsed, or its document is not an
    object, or its episodes cannot be decoded, a call of
    [_save_to_auto_cache] that reports success replaces it by a cache
    that holds the new entry only. *)
Theorem auto_cache_replaces_unloadable in_package env_load env_save now_load
    now source_url m3u8_url title files files' p n t env' now' :
  now ≠ [] → read_fails env' = false →
  unloadable env_load files (Path AUTO_CACHE_PATH) →
  _save_to_auto_cache in_package env_load env_save now_load now source_url
      m3u8_url title true files = (files', [Cached_to p; Cached_episode n t]) →
  ∃ c', load env' now' (Cache_init (Path AUTO_CACHE_PATH)) files' = (true, c') ∧
        get_all_episodes c' =
          [CacheEntry_init now n (title_or_default title n)
             source_url m3u8_url None].
Proof.
  intros Hnow Hr Hbad Hcall.
  apply save_to_auto_cache_success in Hcall as (_ & _ & Hs).
  destruct (load_unloadable env_load now_load
              (Cache_init (Path AUTO_CACHE_PATH)) files Hbad) as (old & Hl & Hold).
  rewrite Hl in Hs. cbn [snd] in Hs.
  destruct (load_false _ _ _ _ _ Hl) as (_ & Hcf & _).
  set (entry := CacheEntry_init now n (title_or_default title n)
                  source_url m3u8_url None) in *.
  assert (He : episodes (add_episode old entry) = [entry]).
  { by rewrite episodes_add_episode, Hold. }
  exists (add_episode old entry). split; [|done].
  change (Path AUTO_CACHE_PATH) with (cache_file (Cache_init (Path AUTO_CACHE_PATH))).
  rewrite <- Hcf.
  apply (load_saved env_save env' now' (add_episode old entry) files files');
    [|done|done].
  rewrite He. constructor; [|done]. simpl. by destruct now.
Qed.
End auto_cache_more.

(** ** Instances of the theorems on sample data *)

Section instances.
Import py fs cache extractor.
#[local] Existing Instance sample.ascii_only.

Lemma add_episode_same_number_replaces_witness :
  let e1 := sample.entry 2 in
  let e2 := CacheEntry_init (sample.clock 0) 2 (lit "Shabbat")
              (episode_url e1) (m3u8_url e1) None in
  let c := add_episode (add_episode (sample.store [1; 2; 3]) e1) e2 in
  filter (λ ep, episode_number ep = 2) (get_all_episodes c) = [e2].
Proof.
  intros e1 e2 c.
  exact (proj1 (add_episode_same_number_replaces
                  (sample.store [1; 2; 3]) e1 e2 eq_refl)).
Defined.

Lemma manifest_precedence_witness :
  _extract_m3u8_url sample.page sample.page_text =
    Some sample.metadata_manifest ∧
  _extract_m3u8_url sample.bare_page sample.page_text =
    Some sample.scanned_manifest ∧
  _extract_m3u8_url sample.script_page (lit "<html></html>") =
    Some sample.script_manifest.
Proof.
  split_and!.
  - refine (proj1 (manifest_precedence sample.page sample.page_text) _ _ _ _ _ _).
    + reflexivity.
    + reflexivity.
    + vm_compute. reflexivity.
    + vm_compute. reflexivity.
  - destruct (manifest_precedence sample.bare_page sample.page_text)
      as (_ & _ & _ & _ & Hscan & Htext & _).
    destruct (proj1 (Hscan sample.page_text sample.scanned_manifest)) as [g Hg].
    { vm_compute. reflexivity. }
    by apply (Htext eq_refl _ g).
  - destruct (manifest_precedence sample.script_page (lit "<html></html>"))
      as (_ & _ & _ & Hnone & Hscan & _ & Hscripts & _).
    destruct (proj1 (Hscan (lit "src = " ++ sample.script_manifest ++ lit " ;")
                       sample.script_manifest)) as [g Hg].
    { vm_compute. reflexivity. }
    apply (Hscripts eq_refl
             (proj1 (Hnone (lit "<html></html>")) ltac:(vm_compute; reflexivity))
             [ {| attrs := []; string_ := None |};
               {| attrs := []; string_ := Some (lit "var player = null;") |} ]
             {| attrs := [];
                string_ := Some (lit "src = " ++ sample.script_manifest ++ lit " ;") |}
             [] (lit "src = " ++ sample.script_manifest ++ lit " ;")
             sample.script_manifest g eq_refl); [|reflexivity|exact Hg].
    intros s t g' [->|[->|Hin%elem_of_nil]%elem_of_cons]%elem_of_cons Ht;
      [done| |done].
    injection Ht as <-. apply (proj1 (Hnone _)). vm_compute. reflexivity.
Defined.

End instances.

(** ** Instances of the further properties *)

Section further_instances.
Import py.
Import fs json cache extractor preprocessor cli.
#[local] Existing Instance sample.ascii_only.
#[local] Existing Instance sample.offline.

Lemma add_episode_commutes_witness :
  let c := sample.store [1; 2] in
  add_episode (add_episode c (sample.entry 5)) (sample.entry 3) =
  add_episode (add_episode c (sample.entry 3)) (sample.entry 5).
Proof.
  intros c. apply add_episode_commutes. simpl. lia.
Defined.

Lemma get_episodes_in_range_single_witness :
  let c := sample.store [1; 2; 3] in
  get_episodes_in_range c 2 2 =
  match get_episode c 2 with
  | Some ep => [ep]
  | None => []
  end.
Proof.
  intros c. apply get_episodes_in_range_single.
  unfold strictly_ascending. simpl.
  repeat (constructor; simpl); lia.
Defined.

Lemma from_dict_ignores_other_fields_witness :
  let kvs := [ (lit "episode_number", JInt 4); (lit "title", JStr (lit "Four"));
               (lit "episode_url", JStr (lit "u")); (lit "m3u8_url", JStr (lit "m")) ] in
  from_dict (sample.clock 0) (JDict kvs) =
  from_dict (sample.clock 0) (JDict ((lit "season", JInt 1) :: kvs)).
Proof.
  intros kvs. apply from_dict_ignores_other_fields.
  intros k Hk. unfold field_names in Hk.
  repeat (apply elem_of_cons in Hk as [->|Hk]); [reflexivity..|].
  by apply elem_of_nil in Hk.
Defined.

Lemma load_overwrites_store_witness :
  let files : filesystem :=
    {[ sample.location := File (Json (data_of (sample.store [2; 1]))) ]} in
  load sample.no_faults sample.clock (sample.store [9]) files =
    (true, sample.store [2; 1]).
Proof.
  intros files.
  apply (load_overwrites_store _ _ (sample.store []) (sample.store [9]));
    [reflexivity|]. vm_compute. reflexivity.
Defined.

Lemma load_missing_keys_witness :
  let files : filesystem := {[ sample.location := File (Json (JDict [])) ]} in
  load sample.no_faults sample.clock (sample.store [1; 2]) files =
    (true, clear (sample.store [1; 2])).
Proof.
  intros files. apply (load_missing_keys _ _ _ _ []); reflexivity.
Defined.

Lemma load_not_an_object_witness :
  let files : filesystem := {[ sample.location := File (Json (JList [])) ]} in
  load sample.no_faults sample.clock (sample.store [1; 2]) files =
    (false, sample.store [1; 2]).
Proof.
  intros files. apply (load_not_an_object _ _ _ _ (JList []));
    [reflexivity|reflexivity|]. intros kvs. discriminate.
Defined.

Lemma load_fails_after_season_witness :
  let files : filesystem :=
    {[ sample.location := File (Json (JDict sample.bad_entry)) ]} in
  load sample.no_faults sample.clock (Cache_init sample.location) files =
    (false, set_season (Cache_init sample.location) (Some 2)).
Proof.
  intros files.
  apply (load_fails_after_season _ _ _ _ sample.bad_entry (Some 2)
           [to_dict (sample.entry 1); JNull] JNull).
  - reflexivity.
  - reflexivity.
  - right. right. exists 2. split; reflexivity.
  - reflexivity.
  - apply list_elem_of_further, list_elem_of_here.
  - left. intros kvs. discriminate.
Defined.

Lemma failed_save_keeps_snapshot_witness :
  let old := sample.store [1] in
  let files : filesystem := {[ sample.location := File (Json (data_of old)) ]} in
  let r := save sample.disk_full (sample.store [1; 2]) files in
  load sample.no_faults sample.clock (Cache_init sample.location) r.2 =
    (true, old).
Proof.
  intros old files r.
  apply (failed_save_keeps_snapshot sample.disk_full sample.no_faults
           sample.clock (sample.store [1; 2]) old files r.2).
  - reflexivity.
  - reflexivity.
  - repeat constructor. discriminate.
  - by repeat constructor.
  - reflexivity.
Defined.

Lemma manifest_has_markers_witness :
  let u := sample.metadata_manifest in
  u ≠ [] ∧
  contains u (lit "hls.m3u8") = true ∧ contains u (lit "viewerToken=") = true.
Proof.
  intros u.
  apply (manifest_has_markers sample.page sample.page_text).
  vm_compute. reflexivity.
Defined.

Lemma scanned_manifest_form_witness :
  let u := sample.scanned_manifest in
  (∃ text pre post,
     (text = sample.page_text ∨
      ∃ script, script ∈ find_all_script sample.bare_page ∧
                string_ script = Some text) ∧
     text = pre ++ u ++ post) ∧
  startswith u (lit "https://") = true ∧
  Forall url_char u.
Proof.
  intros u. apply scanned_manifest_form; [reflexivity|].
  vm_compute. reflexivity.
Defined.

Lemma read_url_list_keeps_blank_lines_witness :
  [] ∈ (_read_url_list sample.no_faults sample.spaced_list (lit "urls.txt")).1.
Proof.
  apply (read_url_list_keeps_blank_lines _ _ _ sample.list_text []).
  - reflexivity.
  - vm_compute. reflexivity.
  - reflexivity.
  - vm_compute. apply list_elem_of_further, list_elem_of_here.
  - constructor.
Defined.

Lemma read_url_list_items_witness :
  let item := lit "a.html" in
  trimmed item ∧ strip item = item ∧
  (startswith item (lit "http") = true ∨
   exists_ sample.spaced_list (Path item) = true ∨
   endswith item (lit ".html") = true) ∧
  ∃ text line,
    (read_text json_text sample.no_faults (Path (lit "urls.txt"))
       sample.spaced_list).1 = Return text ∧
    line ∈ readlines text ∧ item = strip line.
Proof.
  intros item.
  apply (read_url_list_items sample.no_faults sample.spaced_list (lit "urls.txt")).
  vm_compute. apply list_elem_of_here.
Defined.

Lemma extract_title_from_title_tag_witness :
  let s := lit "  Episode 3 " in
  _extract_title sample.bare_page = Some (strip s) ∧ trimmed (strip s) ∧
  (blank s → _extract_title sample.bare_page = Some []).
Proof.
  intros s.
  apply (extract_title_from_title_tag sample.bare_page
           {| attrs := []; string_ := Some s |}).
  - intros og. discriminate.
  - reflexivity.
  - reflexivity.
  - discriminate.
Defined.

Lemma extract_episode_number_nonneg_witness : 0 ≤ 7.
Proof.
  apply (extract_episode_number_nonneg (lit "Season 1 Episode 7: Title")).
  vm_compute. reflexivity.
Defined.

Lemma parse_episode_selection_from_cache_witness :
  sample.entry 3 ∈ get_all_episodes (sample.store [1; 2; 3]).
Proof.
  apply (parse_episode_selection_from_cache (lit "2-3") (sample.store [1; 2; 3])
           (sample.entry <$> [2; 3]) []).
  - vm_compute. reflexivity.
  - apply list_elem_of_further, list_elem_of_here.
Defined.

Lemma auto_cache_records_witness :
  let source := lit "https://watch.thechosen.tv/video/3" in
  let manifest := lit "https://cdn.example/3/hls.m3u8?viewerToken=abc" in
  let title := Some (lit "Episode 3") in
  let r := _save_to_auto_cache true sample.no_faults sample.no_faults
             sample.clock (sample.clock 0) source manifest title true ∅ in
  let old := (load sample.no_faults sample.clock
                (Cache_init (Path AUTO_CACHE_PATH)) ∅).2 in
  ∃ c', load sample.no_faults sample.clock
          (Cache_init (Path AUTO_CACHE_PATH)) r.1 = (true, c') ∧
        season c' = season old ∧
        get_episode c' 3 =
          Some (CacheEntry_init (sample.clock 0) 3 (title_or_default title 3)
                  source manifest None) ∧
        ∀ m, m ≠ 3 → get_episode c' m = get_episode old m.
Proof.
  intros source manifest title r old.
  apply (auto_cache_records true sample.no_faults sample.no_faults sample.clock
           (sample.clock 0) source manifest title ∅ r.1 AUTO_CACHE_PATH 3 title).
  - intros j. discriminate.
  - discriminate.
  - reflexivity.
  - rewrite (surjective_pairing (_save_to_auto_cache _ _ _ _ _ _ _ _ _ _)).
    f_equal; vm_compute; reflexivity.
Defined.

Lemma auto_cache_replaces_unloadable_witness :
  let source := lit "https://watch.thechosen.tv/video/3" in
  let manifest := lit "https://cdn.example/3/hls.m3u8?viewerToken=abc" in
  let r := _save_to_auto_cache true sample.no_faults sample.no_faults
             sample.clock (sample.clock 0) source manifest None true
             sample.damaged_auto_cache in
  ∃ c', load sample.no_faults sample.clock
          (Cache_init (Path AUTO_CACHE_PATH)) r.1 = (true, c') ∧
        get_all_episodes c' =
          [CacheEntry_init (sample.clock 0) 1 (title_or_default None 1)
             source manifest None].
Proof.
  intros source manifest r.
  apply (auto_cache_replaces_unloadable true sample.no_faults sample.no_faults
           sample.clock (sample.clock 0) source manifest None
           sample.damaged_auto_cache r.1 AUTO_CACHE_PATH 1 None).
  - discriminate.
  - reflexivity.
  - split; [reflexivity|]. right. exists (json.JDict sample.bad_entry).
    split; [reflexivity|]. right. exists sample.bad_entry, (Some 2).
    split_and!; [reflexivity|right; right; by exists 2|].
    exists (JList [to_dict (sample.entry 1); JNull]). split; [reflexivity|].
    right. exists [to_dict (sample.entry 1); JNull], JNull.
    split_and!; [reflexivity|apply list_elem_of_further, list_elem_of_here|].
    left. intros kvs. discriminate.
  - rewrite (surjective_pairing (_save_to_auto_cache _ _ _ _ _ _ _ _ _ _)).
    f_equal; vm_compute; reflexivity.
Defined.
End further_instances.
